(** * paceCParser: a shallow embedding of [parser.py]

    The development follows the four text-analysis functions of the
    program: [extract_function_parameters], [format_func_declar],
    [get_function_contents] and [extract_function_variables], and the
    check that [verify_initial_checks] makes with them.

    Data.  A Python [str] is a list of characters; characters are the
    code points below 256.  The program uses [str.strip], [str.split]
    with a one-character separator, [str.splitlines], [str.join], and
    the [re] module ([re.compile], [re.match], [Match.group],
    [Match.groups]).  Each of them is given here as an executable
    function.  Exceptions are values of a small error monad.  The
    calls to [print] have no influence on the returned values and are
    left out, but the expressions they evaluate are kept, since
    evaluating them can raise. *)

From Stdlib Require Import List Bool Arith ZArith Lia Setoid Morphisms.
From Stdlib Require Ascii String.
Import ListNotations Ascii.AsciiSyntax String.StringSyntax.
Import Ascii.

Open Scope string_scope.
Open Scope list_scope.

(** ** Strings *)

Abbreviation str := (list ascii).

(** String literals are read as character lists. *)
Definition lit (s : String.string) : list ascii :=
  String.list_ascii_of_string s.
Coercion lit : String.string >-> list.

Definition code (c : ascii) : nat := nat_of_ascii c.

Definition NL : ascii := ascii_of_nat 10.
Definition CR : ascii := ascii_of_nat 13.

(** [str.isspace] on one character, which is also what [\s] matches in a
    [str] pattern: TAB, LF, VT, FF, CR, FS, GS, RS, US, SPACE, NEL, NBSP. *)
Definition isspace (c : ascii) : bool :=
  let n := code c in
  ((9 <=? n) && (n <=? 13)) || ((28 <=? n) && (n <=? 32))
  || (n =? 133) || (n =? 160).

(** What [\d] matches in a [str] pattern (decimal digits). *)
Definition isdecimal (c : ascii) : bool :=
  let n := code c in (48 <=? n) && (n <=? 57).

(** [str.isalnum] on one character. *)
Definition isalnum (c : ascii) : bool :=
  let n := code c in
  ((48 <=? n) && (n <=? 57)) || ((65 <=? n) && (n <=? 90))
  || ((97 <=? n) && (n <=? 122))
  || (n =? 170) || (n =? 178) || (n =? 179) || (n =? 181) || (n =? 185)
  || (n =? 186) || (n =? 188) || (n =? 189) || (n =? 190)
  || ((192 <=? n) && (n <=? 214)) || ((216 <=? n) && (n <=? 246))
  || ((248 <=? n) && (n <=? 255)).

(** What [\w] matches in a [str] pattern. *)
Definition isword (c : ascii) : bool := isalnum c || (c =? "_")%char.

(** The line boundaries of [str.splitlines]. *)
Definition islinebreak (c : ascii) : bool :=
  let n := code c in
  ((10 <=? n) && (n <=? 13)) || ((28 <=? n) && (n <=? 30)) || (n =? 133).

Definition str_eqb (a b : str) : bool :=
  if list_eq_dec ascii_dec a b then true else false.

(** [s.lstrip()], [s.rstrip()], [s.strip()]. *)
Fixpoint lstrip (s : str) : str :=
  match s with
  | c :: s' => if isspace c then lstrip s' else s
  | [] => []
  end.

Definition rstrip (s : str) : str := rev (lstrip (rev s)).

Definition strip (s : str) : str := rstrip (lstrip s).

(** [s.split(sep)] for a separator of one character. *)
Fixpoint split (sep : ascii) (s : str) : list str :=
  match s with
  | [] => [[]]
  | c :: s' =>
      if (c =? sep)%char then [] :: split sep s'
      else match split sep s' with
           | p :: ps => (c :: p) :: ps
           | [] => [[c]]
           end
  end.

(** [sep.join(l)]. *)
Fixpoint join (sep : str) (l : list str) : str :=
  match l with
  | [] => []
  | [x] => x
  | x :: l' => x ++ sep ++ join sep l'
  end.

(** [s.splitlines()]: the line boundaries are removed, CR LF counts as
    one boundary, and no empty line is produced after a final boundary. *)
Fixpoint splitlines (s : str) : list str :=
  match s with
  | [] => []
  | c :: s' =>
      if islinebreak c then
        [] :: match s' with
              | d :: s'' =>
                  if ((c =? CR) && (d =? NL))%char then splitlines s''
                  else splitlines s'
              | [] => []
              end
      else match splitlines s' with
           | l :: ls => (c :: l) :: ls
           | [] => [[c]]
           end
  end.

(** [l[-1]] on a list that [split] produced. *)
Definition last_piece (l : list str) : str := last l [].

(** [list(filter(None, l))] on a list of strings keeps the non-empty ones. *)
Definition nonempty (s : str) : bool :=
  match s with [] => false | _ :: _ => true end.

(** [l[1:-1]]. *)
Definition slice_1_m1 {A : Type} (l : list A) : list A := removelast (tl l).

(** ** Exceptions *)

Inductive exn : Type :=
| ValueError      (* unpacking a list of the wrong length *)
| IndexError      (* [s[0]] on an empty string, [Match.group] out of range *)
| TypeError       (* an operation on [None] *)
| AttributeError  (* an attribute or a method of [None] *)
| re_error        (* [re.compile] rejects the pattern *)
| NotModelled.    (* the pattern leaves the fragment of [re] modelled below *)

Inductive result (A : Type) : Type :=
| Ok (a : A)
| Raise (e : exn).
Arguments Ok {A} a.
Arguments Raise {A} e.

Definition bind {A B : Type} (m : result A) (f : A -> result B) : result B :=
  match m with
  | Ok a => f a
  | Raise e => Raise e
  end.

Notation "x <- m ;; f" := (bind m (fun x => f))
  (at level 61, m at next level, right associativity).

(** ** Regular expressions: the fragment of [re] that the program uses *)

(** Members of a character set [[...]]. *)
Inductive citem : Type :=
| CChar (c : ascii)
| CRange (lo hi : ascii)
| CSpace (positive : bool)     (* [\s] and [\S] *)
| CWord (positive : bool)      (* [\w] and [\W] *)
| CDigit (positive : bool).    (* [\d] and [\D] *)

(** What matches one character. *)
Inductive cclass : Type :=
| CLit (c : ascii)
| CAny                                   (* [.], without DOTALL *)
| CIn (negated : bool) (items : list citem).

Inductive regex : Type :=
| Eps
| Chr (p : cclass)
| Bol                                    (* [^], without MULTILINE *)
| Eol                                    (* [$], without MULTILINE *)
| Seq (r1 r2 : regex)
| Alt (r1 r2 : regex)
| Star (r : regex)                       (* greedy *)
| Group (i : nat) (r : regex).           (* capturing group number [i] *)

(** [r+] and [r?], both greedy. *)
Definition Plus (r : regex) : regex := Seq r (Star r).
Definition Opt (r : regex) : regex := Alt r Eps.

Definition item_match (i : citem) (a : ascii) : bool :=
  match i with
  | CChar c => (a =? c)%char
  | CRange lo hi => (code lo <=? code a) && (code a <=? code hi)
  | CSpace b => Bool.eqb (isspace a) b
  | CWord b => Bool.eqb (isword a) b
  | CDigit b => Bool.eqb (isdecimal a) b
  end.

Definition cmatch (p : cclass) (a : ascii) : bool :=
  match p with
  | CLit c => (a =? c)%char
  | CAny => negb (a =? NL)%char
  | CIn neg items => xorb neg (existsb (fun i => item_match i a) items)
  end.

(** The text of the groups that took part in the match, latest first. *)
Definition caps : Type := list (nat * str).

Fixpoint cap_lookup (i : nat) (c : caps) : option str :=
  match c with
  | [] => None
  | (j, t) :: c' => if i =? j then Some t else cap_lookup i c'
  end.

(** The backtracking matcher.  [s] is what is left of the subject, whose
    length is [n0]; [k] is what has to match after [r].  Alternatives and
    repetitions are tried in the order of [re]: the left branch first,
    one more iteration before stopping.  An iteration of a repetition has
    to consume a character. *)
Section Matcher.
Context {R : Type}.
Variable n0 : nat.

(** The repetition of [body], at most [fuel] times; [length s] is
    enough fuel, since every iteration consumes a character. *)
Fixpoint star_loop
           (body : str -> caps -> (str -> caps -> option R) -> option R)
           (k : str -> caps -> option R)
           (fuel : nat) (s : str) (c : caps) {struct fuel} : option R :=
    match fuel with
    | 0 => k s c
    | S fuel' =>
        match body s c
                (fun s' c' =>
                   if length s' <? length s then star_loop body k fuel' s' c'
                   else None) with
        | Some x => Some x
        | None => k s c
        end
    end.

Fixpoint rmatch (r : regex) (s : str) (c : caps)
           (k : str -> caps -> option R) {struct r} : option R :=
    match r with
    | Eps => k s c
    | Chr p =>
        match s with
        | a :: s' => if cmatch p a then k s' c else None
        | [] => None
        end
    | Bol => if length s =? n0 then k s c else None
    | Eol =>
        match s with
        | [] => k s c
        | [a] => if (a =? NL)%char then k s c else None
        | _ => None
        end
    | Seq r1 r2 => rmatch r1 s c (fun s' c' => rmatch r2 s' c' k)
    | Alt r1 r2 =>
        match rmatch r1 s c k with
        | Some x => Some x
        | None => rmatch r2 s c k
        end
    | Star r1 => star_loop (rmatch r1) k (length s) s c
    | Group i r1 =>
        rmatch r1 s c
          (fun s' c' => k s' ((i, firstn (length s - length s') s) :: c'))
    end.
End Matcher.

(** A compiled pattern: the expression and its number of groups. *)
Record Pattern : Type := { p_regex : regex; p_groups : nat }.

(** A match object: the matched text and the groups. *)
Record Match : Type := { m_groups : nat; m_whole : str; m_caps : caps }.

(** [pattern.match(s)], which is also [re.match(pattern, s)]: the match
    starts at the first character of [s]. *)
Definition re_match (p : Pattern) (s : str) : option Match :=
  rmatch (length s) (p_regex p) s []
    (fun s' c' =>
       Some {| m_groups := p_groups p;
               m_whole := firstn (length s - length s') s;
               m_caps := c' |}).

(** [m.group(i)]: [None] for a group that took no part in the match,
    IndexError for a group that the pattern does not have. *)
Definition group (m : Match) (i : nat) : result (option str) :=
  if i =? 0 then Ok (Some (m_whole m))
  else if i <=? m_groups m then Ok (cap_lookup i (m_caps m))
  else Raise IndexError.

(** [m.groups()]. *)
Definition groups (m : Match) : list (option str) :=
  map (fun i => cap_lookup i (m_caps m)) (seq 1 (m_groups m)).

(** ** [re.compile]

    The pattern is read one character at a time.  The reader keeps the
    sequence being built (latest item first), the branches of the
    alternation already closed, and one such frame for each group that is
    still open.  A brace that opens no counted repetition is read as
    itself, as [re] does.  Patterns with a construct outside the fragment
    (counted repetition, lazy or possessive repetition, letter and digit
    escapes other than [\s \S \w \W \d \D], group extensions other than
    [(?:]) give [NotModelled]. *)

Record frame : Type :=
  { f_cap : option nat;        (* the number of the group, if capturing *)
    f_alts : list regex;       (* closed branches, latest first *)
    f_seq : list regex }.      (* items of the open branch, latest first *)

(** Inside a set: can the next [-] make a range with the latest item? *)
Inductive pending : Type :=
| PNone      (* no: the set is empty or the latest item is a range *)
| PChar      (* yes: the latest item is a single character *)
| PCat.      (* the latest item is [\s], [\w], ...: a range is an error *)

Inductive mode : Type :=
| MNormal
| MEsc                                                   (* after a backslash *)
| MOpen                                                  (* after [(] *)
| MOpenQ                                                 (* after [(?] *)
| MSetStart                                              (* after [[] *)
| MSet (neg : bool) (items : list citem) (pend : pending)
| MSetEsc (neg : bool) (items : list citem)
| MSetDash (neg : bool) (items : list citem) (pend : pending)
| MSetDashEsc (neg : bool) (items : list citem) (pend : pending)
| MBrace (buf : str) (comma : bool).
    (* after a brace: the digits and the comma read since, latest first *)

Record pstate : Type :=
  { ps_mode : mode;
    ps_cur : frame;
    ps_stack : list frame;
    ps_groups : nat;           (* groups opened so far *)
    ps_rep : bool }.           (* the latest item is a repetition *)

Inductive pres : Type :=
| Parsing (st : pstate)
| Failed (e : exn).

Definition seq_of (items : list regex) : regex := fold_right Seq Eps items.

Fixpoint alt_of (branches : list regex) : regex :=
  match branches with
  | [] => Eps
  | [b] => b
  | b :: bs => Alt b (alt_of bs)
  end.

Definition frame_regex (f : frame) : regex :=
  alt_of (rev (seq_of (rev (f_seq f)) :: f_alts f)).

Definition set_mode (st : pstate) (m : mode) : pres :=
  Parsing {| ps_mode := m; ps_cur := ps_cur st; ps_stack := ps_stack st;
             ps_groups := ps_groups st; ps_rep := ps_rep st |}.

Definition push_item (st : pstate) (r : regex) : pres :=
  Parsing {| ps_mode := MNormal;
             ps_cur := {| f_cap := f_cap (ps_cur st);
                          f_alts := f_alts (ps_cur st);
                          f_seq := r :: f_seq (ps_cur st) |};
             ps_stack := ps_stack st;
             ps_groups := ps_groups st;
             ps_rep := false |}.

Definition open_group (capturing : bool) (st : pstate) : pstate :=
  let n := if capturing then S (ps_groups st) else ps_groups st in
  {| ps_mode := MNormal;
     ps_cur := {| f_cap := if capturing then Some n else None;
                  f_alts := []; f_seq := [] |};
     ps_stack := ps_cur st :: ps_stack st;
     ps_groups := n;
     ps_rep := false |}.

Definition close_group (st : pstate) : pres :=
  match ps_stack st with
  | [] => Failed re_error
  | parent :: rest =>
      let r := frame_regex (ps_cur st) in
      let item := match f_cap (ps_cur st) with
                  | Some i => Group i r
                  | None => r
                  end in
      Parsing {| ps_mode := MNormal;
                 ps_cur := {| f_cap := f_cap parent;
                              f_alts := f_alts parent;
                              f_seq := item :: f_seq parent |};
                 ps_stack := rest;
                 ps_groups := ps_groups st;
                 ps_rep := false |}
  end.

Definition new_branch (st : pstate) : pres :=
  Parsing {| ps_mode := MNormal;
             ps_cur := {| f_cap := f_cap (ps_cur st);
                          f_alts := seq_of (rev (f_seq (ps_cur st)))
                                      :: f_alts (ps_cur st);
                          f_seq := [] |};
             ps_stack := ps_stack st;
             ps_groups := ps_groups st;
             ps_rep := false |}.

Definition is_at (r : regex) : bool :=
  match r with Bol | Eol => true | _ => false end.

(** [*], [+] and [?] apply to the latest item.  After a repetition, [*]
    is the error "multiple repeat", while [?] and [+] ask for a lazy or
    possessive repetition. *)
Definition quantify (st : pstate) (q : regex -> regex) (star : bool) : pres :=
  match f_seq (ps_cur st) with
  | [] => Failed re_error
  | x :: xs =>
      if is_at x then Failed re_error
      else if ps_rep st then Failed (if star then re_error else NotModelled)
      else Parsing {| ps_mode := MNormal;
                      ps_cur := {| f_cap := f_cap (ps_cur st);
                                   f_alts := f_alts (ps_cur st);
                                   f_seq := q x :: xs |};
                      ps_stack := ps_stack st;
                      ps_groups := ps_groups st;
                      ps_rep := true |}
  end.

Definition class_escape (c : ascii) : option citem :=
  if (c =? "s")%char then Some (CSpace true)
  else if (c =? "S")%char then Some (CSpace false)
  else if (c =? "w")%char then Some (CWord true)
  else if (c =? "W")%char then Some (CWord false)
  else if (c =? "d")%char then Some (CDigit true)
  else if (c =? "D")%char then Some (CDigit false)
  else None.

Definition is_ascii_alnum (c : ascii) : bool :=
  let n := code c in
  ((48 <=? n) && (n <=? 57)) || ((65 <=? n) && (n <=? 90))
  || ((97 <=? n) && (n <=? 122)).

(** The digits of a counted repetition. *)
Definition is_ascii_digit (c : ascii) : bool :=
  let n := code c in (48 <=? n) && (n <=? 57).

(** The state after one more literal character. *)
Definition push_lit (st : pstate) (c : ascii) : pstate :=
  {| ps_mode := MNormal;
     ps_cur := {| f_cap := f_cap (ps_cur st);
                  f_alts := f_alts (ps_cur st);
                  f_seq := Chr (CLit c) :: f_seq (ps_cur st) |};
     ps_stack := ps_stack st;
     ps_groups := ps_groups st;
     ps_rep := false |}.

(** A brace and what was read after it turn out to be literal. *)
Definition flush_brace (st : pstate) (buf : str) : pstate :=
  fold_left push_lit ("{"%char :: rev buf) st.

Definition step_normal (st : pstate) (c : ascii) : pres :=
  if (c =? "\")%char then set_mode st MEsc
  else if (c =? "(")%char then set_mode st MOpen
  else if (c =? ")")%char then close_group st
  else if (c =? "[")%char then set_mode st MSetStart
  else if (c =? "|")%char then new_branch st
  else if (c =? "*")%char then quantify st Star true
  else if (c =? "+")%char then quantify st Plus false
  else if (c =? "?")%char then quantify st Opt false
  else if (c =? "{")%char then set_mode st (MBrace [] false)
  else if (c =? ".")%char then push_item st (Chr CAny)
  else if (c =? "^")%char then push_item st Bol
  else if (c =? "$")%char then push_item st Eol
  else push_item st (Chr (CLit c)).

Definition step_set (st : pstate) (neg : bool) (items : list citem)
           (pend : pending) (c : ascii) : pres :=
  if (c =? "-")%char
     && match pend with PNone => false | _ => true end
  then set_mode st (MSetDash neg items pend)
  else if (c =? "]")%char
          && match items with [] => false | _ => true end
  then push_item st (Chr (CIn neg (rev items)))
  else if (c =? "\")%char then set_mode st (MSetEsc neg items)
  else set_mode st (MSet neg (CChar c :: items) PChar).

Definition mk_range (st : pstate) (neg : bool) (items : list citem)
           (pend : pending) (hi : ascii) : pres :=
  match pend, items with
  | PChar, CChar lo :: rest =>
      if code lo <=? code hi
      then set_mode st (MSet neg (CRange lo hi :: rest) PNone)
      else Failed re_error
  | _, _ => Failed re_error
  end.

Definition step (st : pstate) (c : ascii) : pres :=
  match ps_mode st with
  | MNormal => step_normal st c
  | MEsc =>
      match class_escape c with
      | Some i => push_item st (Chr (CIn false [i]))
      | None => if is_ascii_alnum c then Failed NotModelled
                else push_item st (Chr (CLit c))
      end
  | MOpen =>
      if (c =? "?")%char then set_mode st MOpenQ
      else step_normal (open_group true st) c
  | MOpenQ =>
      if (c =? ":")%char then Parsing (open_group false st)
      else Failed NotModelled
  | MSetStart =>
      if (c =? "^")%char then set_mode st (MSet true [] PNone)
      else step_set st false [] PNone c
  | MSet neg items pend => step_set st neg items pend c
  | MSetEsc neg items =>
      match class_escape c with
      | Some i => set_mode st (MSet neg (i :: items) PCat)
      | None => if is_ascii_alnum c then Failed NotModelled
                else set_mode st (MSet neg (CChar c :: items) PChar)
      end
  | MSetDash neg items pend =>
      if (c =? "]")%char
      then push_item st (Chr (CIn neg (rev (CChar "-"%char :: items))))
      else if (c =? "\")%char then set_mode st (MSetDashEsc neg items pend)
      else mk_range st neg items pend c
  | MSetDashEsc neg items pend =>
      match class_escape c with
      | Some _ => Failed re_error
      | None => if is_ascii_alnum c then Failed NotModelled
                else mk_range st neg items pend c
      end
  | MBrace buf comma =>
      (* [{m}], [{m,}], [{,n}], [{m,n}] and [{,}] are counted repetitions;
         any other continuation makes the brace a literal *)
      if is_ascii_digit c then set_mode st (MBrace (c :: buf) comma)
      else if (c =? ",")%char && negb comma
      then set_mode st (MBrace (c :: buf) true)
      else if (c =? "}")%char
              && match buf with [] => false | _ => true end
      then Failed NotModelled
      else step_normal (flush_brace st buf) c
  end.

Definition pstep (p : pres) (c : ascii) : pres :=
  match p with
  | Parsing st => step st c
  | Failed e => Failed e
  end.

Definition pstart : pstate :=
  {| ps_mode := MNormal;
     ps_cur := {| f_cap := None; f_alts := []; f_seq := [] |};
     ps_stack := [];
     ps_groups := 0;
     ps_rep := false |}.

Definition pfinish (p : pres) : result Pattern :=
  match p with
  | Failed e => Raise e
  | Parsing st =>
      let st := match ps_mode st with
                | MBrace buf _ => flush_brace st buf
                | _ => st
                end in
      match ps_mode st, ps_stack st with
      | MNormal, [] =>
          Ok {| p_regex := frame_regex (ps_cur st);
                p_groups := ps_groups st |}
      | _, _ => Raise re_error
      end
  end.

Definition re_compile (pattern : str) : result Pattern :=
  pfinish (fold_left pstep pattern (Parsing pstart)).

(** ** The records of the program *)

(** The dataclasses [Variable] (here [Variable_]) and [Function].
    [Variable.value] is [None], a string or a [Function]. *)
Inductive Variable_ : Type :=
  Build_Variable (data_type : str) (name : str) (value : option Value)
with Value : Type :=
| VStr (s : str)
| VFunction (f : Function)
with Function : Type :=
  Build_Function (return_type : str) (function_name : str)
                 (parameters : list Variable_).

Definition data_type (v : Variable_) : str :=
  match v with Build_Variable t _ _ => t end.
Definition name (v : Variable_) : str :=
  match v with Build_Variable _ n _ => n end.
Definition value (v : Variable_) : option Value :=
  match v with Build_Variable _ _ x => x end.
Definition return_type (f : Function) : str :=
  match f with Build_Function t _ _ => t end.
Definition function_name (f : Function) : str :=
  match f with Build_Function _ n _ => n end.
Definition parameters (f : Function) : list Variable_ :=
  match f with Build_Function _ _ ps => ps end.

(** ** [extract_function_parameters] *)

(** The body of the loop, for one stripped piece: the piece is unpacked
    into exactly two fields separated by one space, and a leading [*] of
    the second field goes to the end of the first. *)
Definition clean_param (param : str) : result Variable_ :=
  match split " "%char param with
  | [data_type; param_name] =>
      match param_name with
      | [] => Raise IndexError
      | c :: rest =>
          if (c =? "*")%char
          then Ok (Build_Variable (data_type ++ "*") rest None)
          else Ok (Build_Variable data_type param_name None)
      end
  | _ => Raise ValueError
  end.

(** The loop: the first piece that raises ends it. *)
Fixpoint clean_params_loop (params : list str) (clean_params : list Variable_)
  : result (list Variable_) :=
  match params with
  | [] => Ok clean_params
  | param :: rest =>
      parameter <- clean_param param ;;
      clean_params_loop rest (clean_params ++ [parameter])
  end.

Definition extract_function_parameters (parameters : str)
  : result (list Variable_) :=
  if str_eqb parameters "" then Ok []
  else
    let parameters := split ","%char parameters in
    let parameters := map strip parameters in
    clean_params_loop parameters [].

(** ** [format_func_declar] *)

Definition format_func_declar_pattern : str :=
  "^(\S+(?:\s+\S+)*)\s+(\w+)\s*\(([^)]*)\)$".

(** [None] is the "Function declaration not found" result. *)
Definition format_func_declar (func_str : str) : result (option Function) :=
  pattern <- re_compile format_func_declar_pattern ;;
  match re_match pattern func_str with
  | None => Ok None
  | Some m =>
      match groups m with
      | [Some return_type; Some function_name; Some parameters] =>
          match function_name with
          | [] => Raise IndexError
          | c :: rest =>
              let '(return_type, function_name) :=
                if (c =? "*")%char then (return_type ++ "*", rest)
                else (return_type, function_name) in
              clean_parameters <- extract_function_parameters parameters ;;
              Ok (Some (Build_Function return_type function_name
                                       clean_parameters))
          end
      | [_; _; _] => Raise TypeError
      | _ => Raise ValueError
      end
  end.

(** ** [get_function_contents] *)

Definition param_str (params : list Variable_) : str :=
  join ", " (map (fun param => data_type param ++ " " ++ name param) params).

(** The text handed to [re.compile]: the fields of the record are put
    into the pattern as they are. *)
Definition func_pattern_text (function : Function) : str :=
  "^\s*" ++ return_type function ++ "\s+" ++ function_name function
  ++ "\s*\(" ++ param_str (parameters function) ++ "\)\s*\{".

(** The inner loop over the characters of one line. *)
Fixpoint count_braces (line : str) (brace_count : Z) : Z :=
  match line with
  | [] => brace_count
  | char :: rest =>
      if (char =? "{")%char then count_braces rest (brace_count + 1)%Z
      else if (char =? "}")%char then count_braces rest (brace_count - 1)%Z
      else count_braces rest brace_count
  end.

Record scan_state : Type :=
  { found_function : bool;
    inside_function : bool;
    brace_count : Z;
    function_body : list str }.

Definition scan_start : scan_state :=
  {| found_function := false; inside_function := false;
     brace_count := 0%Z; function_body := [] |}.

(** The loop over the lines; it ends at the end of the text or at the
    [break]. *)
Fixpoint scan_lines (func_pattern : Pattern) (lines : list str)
         (st : scan_state) : scan_state :=
  match lines with
  | [] => st
  | line :: rest =>
      let header :=
        if inside_function st then false
        else match re_match func_pattern line with
             | Some _ => true
             | None => false
             end in
      if header then
        scan_lines func_pattern rest
          {| found_function := true; inside_function := true;
             brace_count := 1%Z;
             function_body := function_body st ++ [strip line] |}
      else if inside_function st then
        let n := count_braces line (brace_count st) in
        let body := function_body st ++ [strip line] in
        if (n =? 0)%Z then
          {| found_function := found_function st; inside_function := false;
             brace_count := n; function_body := body |}
        else
          scan_lines func_pattern rest
            {| found_function := found_function st;
               inside_function := true;
               brace_count := n; function_body := body |}
      else scan_lines func_pattern rest st
  end.

(** What is returned after the loop. *)
Definition scan_result (st : scan_state) : option (list str) :=
  if found_function st
  then Some (filter nonempty (slice_1_m1 (function_body st)))
  else None.

(** [Ok None] is the "not found" result. *)
Definition get_function_contents (content : str) (function : Function)
  : result (option (list str)) :=
  func_pattern <- re_compile (func_pattern_text function) ;;
  Ok (scan_result (scan_lines func_pattern (splitlines content) scan_start)).

(** ** [extract_function_variables] *)

Definition extract_function_variables_pattern : str :=
  "^\s*(int|float|char|double|long|short|unsigned|signed|void)\s+([\w*]+)(\s*=\s*([^;]+))?\s*;".

Definition call_pattern : str :=
  "^\s*([a-zA-Z_][a-zA-Z0-9_]*)\s*\([^)]*\)\s*".

(** [match.group(i)] used as a string. *)
Definition text_of (o : option str) : str :=
  match o with Some t => t | None => [] end.

(** The body of the loop for a line that matches: the variable to append. *)
Definition variable_of_match (func_pattern : Pattern) (m : Match)
  : result Variable_ :=
  g1 <- group m 1 ;;
  g2 <- group m 2 ;;
  g3 <- group m 3 ;;
  var_value <-
    match g3 with
    | Some t =>
        if nonempty t then
          g3' <- group m 3 ;;
          let var_value := strip (last_piece (split "="%char (text_of g3'))) in
          match re_match func_pattern var_value with
          | Some m' =>
              _ <- group m' 1 ;;
              _ <- group m' 2 ;;
              Ok (Some (VStr var_value))
          | None => Ok (Some (VStr var_value))
          end
        else Ok None
    | None => Ok None
    end ;;
  Ok (Build_Variable (text_of g1) (text_of g2) var_value).

Fixpoint variables_loop (pattern func_pattern : Pattern)
         (function_contents : list str) (variables : list Variable_)
  : result (list Variable_) :=
  match function_contents with
  | [] => Ok variables
  | line :: rest =>
      match re_match pattern line with
      | Some m =>
          v <- variable_of_match func_pattern m ;;
          variables_loop pattern func_pattern rest (variables ++ [v])
      | None => variables_loop pattern func_pattern rest variables
      end
  end.

Definition extract_function_variables (function_contents : list str)
  : result (list Variable_) :=
  pattern <- re_compile extract_function_variables_pattern ;;
  func_pattern <- re_compile call_pattern ;;
  variables_loop pattern func_pattern function_contents [].

(** ** [verify_initial_checks]

    The file system and the compiler are outside the model.  What the
    function gets from them is given: whether the suffix of the file
    name, in lower case, is [.c]; whether [compile_program] succeeds; and
    what [get_file_contents] returns, [None] for a file that is not
    found. *)
Definition verify_initial_checks (c_suffix compiled : bool)
           (contents : option str) : result bool :=
  if negb c_suffix then Ok false
  else if negb compiled then Ok false
  else
    main_function <- format_func_declar "int main()" ;;
    function_contents <-
      match main_function, contents with
      | Some function, Some content => get_function_contents content function
      | _, _ => Raise AttributeError
      end ;;
    match function_contents with
    | Some lines =>
        match lines with
        | [] => Raise IndexError
        | _ :: _ =>
            if negb (str_eqb "return 0;" (last lines [])) then Ok false
            else Ok true
        end
    | None => Ok true
    end.

(** ** Notions used in the statements *)

(** *** Parameter lists *)

Definition count_char (c : ascii) (s : str) : nat := count_occ ascii_dec s c.

(** A piece that, once stripped, has exactly one space. *)
Definition one_space (piece : str) : Prop :=
  count_char " " (strip piece) = 1.

(** The parameter made of a type field [t] and a name field [n]: a [*]
    in front of the name goes to the end of the type. *)
Definition param_of (t n : str) : Variable_ :=
  match n with
  | c :: rest =>
      if (c =? "*")%char then Build_Variable (t ++ "*") rest None
      else Build_Variable t n None
  | [] => Build_Variable t n None
  end.

(** [v] is made of the two fields of [piece]. *)
Definition fields_of (piece : str) (v : Variable_) : Prop :=
  exists t n, strip piece = t ++ " " ++ n
              /\ ~ In " "%char t /\ ~ In " "%char n /\ n <> []
              /\ v = param_of t n.

(** One parameter as [get_function_contents] writes it. *)
Definition render (v : Variable_) : str := data_type v ++ " " ++ name v.

(** A parameter list as the spec has it: it is not empty and each of its
    pieces, once trimmed, has whitespace in it, where the type ends and
    the name begins. *)
Definition well_formed (parameters : str) : bool :=
  negb (str_eqb parameters "")
  && forallb (fun piece => existsb isspace (strip piece))
             (split ","%char parameters).

(** Whitespace normalization.  The tokens of a text: a comma and a [*]
    are tokens of their own, and the other tokens are the longest runs of
    characters that are not whitespace, a comma or a [*].  Two texts are
    the same up to whitespace when they have the same tokens, so that
    whitespace counts only where it separates two words. *)
Definition is_punct (c : ascii) : bool := ((c =? ",") || (c =? "*"))%char.

Definition flush (cur : str) : list str :=
  match cur with [] => [] | _ :: _ => [cur] end.

(** [cur] is the part already read of the token being read. *)
Fixpoint tokens_from (s cur : str) : list str :=
  match s with
  | [] => flush cur
  | c :: rest =>
      if isspace c then flush cur ++ tokens_from rest []
      else if is_punct c then flush cur ++ [c] :: tokens_from rest []
      else tokens_from rest (cur ++ [c])
  end.

Definition tokens (s : str) : list str := tokens_from s [].

(** A [*] that follows the first space of a piece goes in front of the
    space: [int *x] becomes [int* x]. *)
Fixpoint move_sigil (piece : str) : str :=
  match piece with
  | [] => []
  | c :: rest =>
      if (c =? " ")%char then
        match rest with
        | d :: rest' =>
            if (d =? "*")%char then "*"%char :: " "%char :: rest'
            else c :: rest
        | [] => c :: rest
        end
      else c :: move_sigil rest
  end.

(** A text without whitespace and comma. *)
Definition token (t : str) : bool :=
  forallb (fun c => negb (isspace c) && negb (c =? ",")%char) t.

(** *** The scan of the lines *)

(** [func_pattern.match(line)] is not [None]. *)
Definition is_header (p : Pattern) (line : str) : bool :=
  match re_match p line with Some _ => true | None => false end.

(** The opening braces of a line minus its closing braces. *)
Definition braces (line : str) : Z :=
  (Z.of_nat (count_char "{" line) - Z.of_nat (count_char "}" line))%Z.

(** The brace depth after [lines], from depth [d]: [d] plus the opening
    braces of the lines minus their closing braces. *)
Fixpoint depth_after (lines : list str) (d : Z) : Z :=
  match lines with
  | [] => d
  | line :: rest => depth_after rest (d + braces line)%Z
  end.

(** From depth [d], the depth is zero at the end of none of [lines]. *)
Fixpoint open_through (lines : list str) (d : Z) : bool :=
  match lines with
  | [] => true
  | line :: rest =>
      negb (d + braces line =? 0)%Z
      && open_through rest (d + braces line)%Z
  end.

(** The header as the spec serializes it. *)
Definition canonical_header (function : Function) : str :=
  return_type function ++ " " ++ function_name function
  ++ "(" ++ param_str (parameters function) ++ ") {".

(** *** The language of an expression *)

(** [iter step s u]: [u] is reached from [s] by steps that each consume
    a character. *)
Inductive iter (step : str -> str -> Prop) : str -> str -> Prop :=
| iter_stop s : iter step s s
| iter_more s t u :
    step s t -> length t < length s -> iter step t u -> iter step s u.

(** [lang n0 r s s']: on a subject of length [n0], [r] matches from
    where [s] is left to where [s'] is left. *)
Fixpoint lang (n0 : nat) (r : regex) (s s' : str) : Prop :=
  match r with
  | Eps => s' = s
  | Chr p => exists a, s = a :: s' /\ cmatch p a = true
  | Bol => s' = s /\ length s = n0
  | Eol => s' = s /\ (s = [] \/ s = [NL])
  | Seq r1 r2 => exists t, lang n0 r1 s t /\ lang n0 r2 t s'
  | Alt r1 r2 => lang n0 r1 s s' \/ lang n0 r2 s s'
  | Star r1 => iter (lang n0 r1) s s'
  | Group _ r1 => lang n0 r1 s s'
  end.

(** The continuation [k] succeeds on [s], whatever the groups. *)
Definition succeeds {R : Type} (k : str -> caps -> option R) (s : str)
  : Prop :=
  forall c, k s c <> None.

(** Whether [k] succeeds does not depend on the groups. *)
Definition uniform {R : Type} (k : str -> caps -> option R) : Prop :=
  forall s c, k s c <> None -> succeeds k s.

(** [body] succeeds exactly on the language [L]. *)
Definition complete_for {R : Type}
           (body : str -> caps -> (str -> caps -> option R) -> option R)
           (L : str -> str -> Prop) : Prop :=
  forall k, uniform k -> forall s c,
    body s c k <> None <-> exists s', L s s' /\ succeeds k s'.

(** The head of [s], if any, is not matched by [p]. *)
Definition stops (p : cclass) (s : str) : Prop :=
  match s with
  | a :: _ => cmatch p a = false
  | [] => True
  end.

(** *** The header pattern *)

(** The characters that [re.compile] does not read as themselves. *)
Definition special (c : ascii) : bool :=
  existsb (fun x => (c =? x)%char) "\()[|*+?{.^$".

Definition plain (t : str) : bool := forallb (fun c => negb (special c)) t.

Definition spaces (w : str) : bool := forallb isspace w.

Definition WS : regex := Chr (CIn false [CSpace true]).

Definition lits (t : str) : list regex := map (fun c => Chr (CLit c)) t.

(** A state of the reader outside groups and sets. *)
Definition nstate (items : list regex) (rep : bool) : pstate :=
  {| ps_mode := MNormal;
     ps_cur := {| f_cap := None; f_alts := []; f_seq := items |};
     ps_stack := [];
     ps_groups := 0;
     ps_rep := rep |}.

(** What [func_pattern_text] compiles to when the fields are plain. *)
Definition header_regex (function : Function) : regex :=
  seq_of ([Bol; Star WS] ++ lits (return_type function)
          ++ [Plus WS] ++ lits (function_name function)
          ++ [Star WS; Chr (CLit "("%char)]
          ++ lits (param_str (parameters function))
          ++ [Chr (CLit ")"%char); Star WS; Chr (CLit "{"%char)]).

(** The lines with a header: the fields of the record as they are, any
    whitespace in front, at least one whitespace character between the
    return type and the name, any whitespace before the two parentheses
    and before the brace, then any text. *)
Definition header_shape (function : Function) (line : str) : Prop :=
  exists w0 w1 w2 w3 rest,
    line = w0 ++ return_type function ++ w1 ++ function_name function
           ++ w2 ++ "(" ++ param_str (parameters function) ++ ")"
           ++ w3 ++ "{" ++ rest
    /\ spaces w0 = true /\ spaces w1 = true /\ w1 <> []
    /\ spaces w2 = true /\ spaces w3 = true.

(** *** The declaration pattern *)

Definition primitive_keywords : list str :=
  ["int" : str; "float" : str; "char" : str; "double" : str; "long" : str;
   "short" : str; "unsigned" : str; "signed" : str; "void" : str].

Definition KEYWORD : regex :=
  alt_of (map (fun kw => seq_of (lits kw)) primitive_keywords).

Definition NAMECHAR : cclass := CIn false [CWord true; CChar "*"%char].

Definition NOSEMI : cclass := CIn true [CChar ";"%char].

(** What [extract_function_variables_pattern] compiles to. *)
Definition decl_regex : regex :=
  seq_of [Bol; Star WS; Group 1 KEYWORD; Plus WS;
          Group 2 (seq_of [Plus (Chr NAMECHAR)]);
          Opt (Group 3 (seq_of [Star WS; Chr (CLit "="%char); Star WS;
                                Group 4 (seq_of [Plus (Chr NOSEMI)])]));
          Star WS; Chr (CLit ";"%char)].

(** The sets of [call_pattern]. *)
Definition IDSTART : cclass :=
  CIn false [CRange "a" "z"; CRange "A" "Z"; CChar "_"%char].
Definition IDCHAR : cclass :=
  CIn false [CRange "a" "z"; CRange "A" "Z"; CRange "0" "9"; CChar "_"%char].
Definition NOTRPAREN : cclass := CIn true [CChar ")"%char].

(** What [call_pattern] compiles to. *)
Definition call_regex : regex :=
  seq_of [Bol; Star WS;
          Group 1 (seq_of [Chr IDSTART; Star (Chr IDCHAR)]);
          Star WS; Chr (CLit "("%char); Star (Chr NOTRPAREN);
          Chr (CLit ")"%char); Star WS].

(** The characters of a declared name: word characters and [*]. *)
Definition is_name_char (c : ascii) : bool := isword c || (c =? "*")%char.

(** A text that is not empty and does not begin with whitespace. *)
Definition starts_dark (v : str) : bool :=
  match v with a :: _ => negb (isspace a) | [] => false end.

(** The initializer as the extractor keeps it: what follows the last [=]
    of the text, trimmed. *)
Definition initializer_of (v : str) : str :=
  strip (last_piece (split "="%char v)).

Definition is_id_start (c : ascii) : bool :=
  let n := code c in
  ((97 <=? n) && (n <=? 122)) || ((65 <=? n) && (n <=? 90)) || (n =? 95).

Definition is_id_char (c : ascii) : bool := is_id_start c || isdecimal c.

(** The call shape: an identifier, [(], a text without [)], and [)], with
    whitespace allowed before the identifier and before [(], and any text
    after [)]. *)
Definition call_shape (t : str) : Prop :=
  exists w0 a id w1 args rest,
    t = w0 ++ a :: id ++ w1 ++ "(" ++ args ++ ")" ++ rest
    /\ spaces w0 = true /\ is_id_start a = true
    /\ forallb is_id_char id = true /\ spaces w1 = true
    /\ ~ In ")"%char args.

(** *** Matches and their groups *)

(** [citer step s c u e]: as [iter], with the groups. *)
Inductive citer (step : str -> caps -> str -> caps -> Prop)
  : str -> caps -> str -> caps -> Prop :=
| citer_stop s c : citer step s c s c
| citer_more s c t d u e :
    step s c t d -> length t < length s -> citer step t d u e ->
    citer step s c u e.

(** [matches n0 r s c s' c']: on a subject of length [n0], [r] matches
    from where [s] is left to where [s'] is left, and the groups [c]
    become [c']. *)
Fixpoint matches (n0 : nat) (r : regex) (s : str) (c : caps)
         (s' : str) (c' : caps) : Prop :=
  match r with
  | Eps => s' = s /\ c' = c
  | Chr p => (exists a, s = a :: s' /\ cmatch p a = true) /\ c' = c
  | Bol => (s' = s /\ length s = n0) /\ c' = c
  | Eol => (s' = s /\ (s = [] \/ s = [NL])) /\ c' = c
  | Seq r1 r2 => exists t d, matches n0 r1 s c t d /\ matches n0 r2 t d s' c'
  | Alt r1 r2 => matches n0 r1 s c s' c' \/ matches n0 r2 s c s' c'
  | Star r1 => citer (matches n0 r1) s c s' c'
  | Group i r1 =>
      exists d, matches n0 r1 s c s' d
                /\ c' = (i, firstn (length s - length s') s) :: d
  end.

(** An expression without groups. *)
Fixpoint groupless (r : regex) : bool :=
  match r with
  | Group _ _ => false
  | Seq r1 r2 | Alt r1 r2 => groupless r1 && groupless r2
  | Star r1 => groupless r1
  | _ => true
  end.


(** *** The pattern of [format_func_declar] *)

Definition NONWSC : cclass := CIn false [CSpace false].

Definition WSC : cclass := CIn false [CSpace true].

Definition WORDC : cclass := CIn false [CWord true].

(** [\S+(?:\s+\S+)*]. *)
Definition TOKENS : regex :=
  seq_of [Plus (Chr NONWSC); Star (seq_of [Plus (Chr WSC); Plus (Chr NONWSC)])].

(** What [format_func_declar_pattern] compiles to. *)
Definition format_regex : regex :=
  seq_of [Bol; Group 1 TOKENS; Plus (Chr WSC);
          Group 2 (seq_of [Plus (Chr WORDC)]); Star (Chr WSC);
          Chr (CLit "("%char); Group 3 (seq_of [Star (Chr NOTRPAREN)]);
          Chr (CLit ")"%char); Eol].

(** A text that is not empty and neither begins nor ends with
    whitespace: words with whitespace between them. *)
Definition trimmed (g : str) : bool :=
  match g with
  | [] => false
  | a :: _ => negb (isspace a) && negb (isspace (last g a))
  end.

(** The snippets that [format_func_declar] matches: a return type, the
    name, the parameter text between parentheses, with whitespace before
    the name and possibly after it, and possibly a final newline. *)
Definition declar_shape (func_str g1 w1 fname w2 params tail : str) : Prop :=
  func_str = g1 ++ w1 ++ fname ++ w2 ++ "(" ++ params ++ ")" ++ tail
  /\ trimmed g1 = true
  /\ spaces w1 = true /\ w1 <> []
  /\ forallb isword fname = true /\ fname <> []
  /\ spaces w2 = true
  /\ ~ In ")"%char params
  /\ (tail = [] \/ tail = [NL]).

(** *** The inputs of the examples *)

Definition int_f : Function := Build_Function "int" "f" [].

Definition int_ptr_make : Function := Build_Function "int*" "make" [].

Definition three_lines : str :=
  "int f() {" ++ [NL] ++ "  int x = 5;" ++ [NL] ++ "}" ++ [NL].

Definition no_closing_brace : str :=
  "int f() {" ++ [NL] ++ "  int x = 5;" ++ [NL] ++ "  int y = 6;" ++ [NL].

Definition nested_block : str :=
  "#include <stdio.h>" ++ [NL] ++ [NL]
  ++ "int f() {" ++ [NL]
  ++ "  if (x) {" ++ [NL]
  ++ "    y = 1; }" ++ [NL]
  ++ [NL]
  ++ "  return 0;" ++ [NL]
  ++ "}" ++ [NL]
  ++ "int g() {" ++ [NL]
  ++ "}" ++ [NL].

Definition other_spacing : str :=
  "int  f ()  { return 0;" ++ [NL] ++ "}" ++ [NL].

(** The record that [format_func_declar] gives for [int main()]. *)
Definition int_main : Function := Build_Function "int" "main" [].

Definition main_returns_zero : str :=
  "#include <stdio.h>" ++ [NL]
  ++ "int main() {" ++ [NL]
  ++ "  if (1) { f(); }" ++ [NL]
  ++ "  return 0;" ++ [NL]
  ++ [NL]
  ++ "}" ++ [NL].

Definition main_void : str :=
  "int main(void) {" ++ [NL] ++ "  return 1;" ++ [NL] ++ "}" ++ [NL].

Definition main_empty : str := "int main() {" ++ [NL] ++ "}" ++ [NL].

(** * Properties *)

(** ** Strings *)

Lemma split_not_nil sep s : split sep s <> [].
Proof.
  destruct s as [|c s]; simpl; [discriminate|].
  destruct (c =? sep)%char; [discriminate|].
  destruct (split sep s); discriminate.
Qed.

(** [split] gives one piece more than there are separators. *)
Lemma split_length sep s : length (split sep s) = S (count_char sep s).
Proof.
  induction s as [|c s IH]; simpl; [reflexivity|].
  unfold count_char in *; simpl.
  destruct (Ascii.eqb_spec c sep) as [->|Hne].
  - destruct (ascii_dec sep sep); [|congruence]. simpl. now rewrite IH.
  - destruct (ascii_dec c sep); [congruence|].
    destruct (split sep s) eqn:E; simpl in *; [discriminate|]. exact IH.
Qed.

(** Joining the pieces with the separator gives the text back. *)
Lemma join_split sep s : join [sep] (split sep s) = s.
Proof.
  induction s as [|c s IH]; simpl; [reflexivity|].
  destruct (Ascii.eqb_spec c sep) as [->|Hne].
  - pose proof (split_not_nil sep s) as Hn.
    destruct (split sep s) eqn:E; [congruence|].
    simpl in *. now rewrite IH.
  - destruct (split sep s) as [|p ps] eqn:E;
      [now destruct (split_not_nil sep s)|].
    simpl in *. destruct ps; simpl in *; now rewrite <- IH.
Qed.

Lemma split_no_sep sep s p : In p (split sep s) -> ~ In sep p.
Proof.
  revert p. induction s as [|c s IH]; simpl; intros p Hin.
  - destruct Hin as [<-|[]]. intros [].
  - destruct (Ascii.eqb_spec c sep) as [->|Hne].
    + destruct Hin as [<-|Hin]; [intros []|now apply IH].
    + destruct (split sep s) as [|q qs] eqn:E.
      * destruct Hin as [<-|[]]. intros [H|[]]. congruence.
      * destruct Hin as [<-|Hin].
        -- intros [H|H]; [congruence|]. apply (IH q); [now left|assumption].
        -- apply IH. now right.
Qed.

Lemma split_app_sep sep a b :
  ~ In sep a -> split sep (a ++ sep :: b) = a :: split sep b.
Proof.
  induction a as [|c a IH]; simpl; intros Hn.
  - now rewrite Ascii.eqb_refl.
  - destruct (Ascii.eqb_spec c sep) as [->|Hne];
      [exfalso; now apply Hn; left|].
    rewrite IH by (intros H; apply Hn; now right). reflexivity.
Qed.

Lemma split_none sep a : ~ In sep a -> split sep a = [a].
Proof.
  induction a as [|c a IH]; simpl; intros Hn; [reflexivity|].
  destruct (Ascii.eqb_spec c sep) as [->|Hne];
    [exfalso; now apply Hn; left|].
  rewrite IH by (intros H; apply Hn; now right). reflexivity.
Qed.

Lemma str_eqb_nil s : str_eqb s "" = true <-> s = [].
Proof.
  unfold str_eqb.
  destruct (list_eq_dec ascii_dec s ""); split; intros; auto; discriminate.
Qed.

Lemma forallb_impl {A} (f g : A -> bool) l :
  (forall a, f a = true -> g a = true) ->
  forallb f l = true -> forallb g l = true.
Proof. intros H. rewrite !forallb_forall. auto. Qed.

(** What [lstrip] leaves does not begin with whitespace. *)
Lemma lstrip_head s :
  match lstrip s with [] => True | c :: _ => isspace c = false end.
Proof.
  induction s as [|c s IH]; simpl; [exact I|].
  destruct (isspace c) eqn:E; [exact IH|exact E].
Qed.

Lemma lstrip_suffix s : exists w, s = w ++ lstrip s /\ spaces w = true.
Proof.
  induction s as [|c s (w & Hw & Hs)]; simpl.
  - now exists [].
  - destruct (isspace c) eqn:E.
    + exists (c :: w). simpl. rewrite E, Hs. split; [now f_equal|reflexivity].
    + now exists [].
Qed.

(** [strip] removes whitespace at both ends, and nothing else. *)
Lemma strip_decomp s :
  exists w1 w2, s = w1 ++ strip s ++ w2
                /\ spaces w1 = true /\ spaces w2 = true.
Proof.
  unfold strip, rstrip.
  destruct (lstrip_suffix s) as (w1 & H1 & Hw1).
  destruct (lstrip_suffix (rev (lstrip s))) as (w2 & H2 & Hw2).
  exists w1, (rev w2). repeat split; try assumption.
  - rewrite <- rev_app_distr, <- H2, rev_involutive. exact H1.
  - unfold spaces in *. rewrite forallb_forall in *.
    intros x Hx. apply Hw2. now apply in_rev.
Qed.

Lemma strip_last s t c : strip s = t ++ [c] -> isspace c = false.
Proof.
  unfold strip, rstrip. intros H.
  pose proof (lstrip_head (rev (lstrip s))) as Hh.
  apply (f_equal (@rev ascii)) in H.
  rewrite rev_involutive, rev_app_distr in H.
  simpl in H. now rewrite H in Hh.
Qed.

Lemma lstrip_id s :
  match s with a :: _ => isspace a = false | [] => True end -> lstrip s = s.
Proof. destruct s as [|a s]; [reflexivity|]. simpl. now intros ->. Qed.

Lemma strip_id s :
  forallb (fun a => negb (isspace a)) s = true -> strip s = s.
Proof.
  intros H. unfold strip, rstrip.
  rewrite (lstrip_id s).
  - rewrite lstrip_id; [apply rev_involutive|].
    destruct (rev s) as [|a t] eqn:E; [exact I|].
    rewrite forallb_forall in H. apply negb_true_iff, H, in_rev.
    rewrite E. now left.
  - destruct s as [|a s]; [exact I|]. simpl in H.
    apply andb_prop in H as [H _]. now apply negb_true_iff.
Qed.

Lemma join_cons sep x y l :
  join sep (x :: y :: l) = x ++ sep ++ join sep (y :: l).
Proof. reflexivity. Qed.

(** ** [extract_function_parameters] *)

(** A text with one space has two fields. *)
Lemma two_fields p :
  count_char " " p = 1 ->
  exists t n, split " " p = [t; n] /\ p = t ++ " " ++ n
              /\ ~ In " "%char t /\ ~ In " "%char n.
Proof.
  intros Hc.
  pose proof (split_length " " p) as Hl. rewrite Hc in Hl.
  destruct (split " " p) as [|t [|n [|]]] eqn:E; try discriminate.
  exists t, n. split; [reflexivity|]. split.
  - rewrite <- (join_split " " p), E. reflexivity.
  - split; apply (split_no_sep " " p); rewrite E; simpl; auto.
Qed.

(** A stripped piece does not end with a space, so that its second field
    is not empty and [param_name[0]] does not raise. *)
Lemma stripped_second_field q t : strip q <> t ++ " " ++ [].
Proof. intros H. apply strip_last in H. discriminate. Qed.

Lemma clean_param_one_space q :
  one_space q ->
  exists t n, strip q = t ++ " " ++ n /\ ~ In " "%char t /\ ~ In " "%char n
              /\ n <> [] /\ clean_param (strip q) = Ok (param_of t n).
Proof.
  intros H. destruct (two_fields _ H) as (t & n & Hs & Hp & Ht & Hn).
  exists t, n. repeat split; try assumption.
  - intros ->. exact (stripped_second_field _ _ Hp).
  - unfold clean_param. rewrite Hs.
    destruct n as [|c rest]; [exfalso; exact (stripped_second_field _ _ Hp)|].
    simpl. destruct (c =? "*")%char; reflexivity.
Qed.

Lemma clean_param_other p :
  count_char " " p <> 1 -> clean_param p = Raise ValueError.
Proof.
  intros Hc. unfold clean_param.
  pose proof (split_length " " p) as Hl.
  destruct (split " " p) as [|t [|n [|]]]; try reflexivity.
  simpl in Hl. congruence.
Qed.

(** On a stripped piece the body of the loop returns or raises
    ValueError. *)
Lemma clean_param_stripped q :
  (exists v, clean_param (strip q) = Ok v)
  \/ clean_param (strip q) = Raise ValueError.
Proof.
  destruct (Nat.eq_dec (count_char " " (strip q)) 1) as [H|H].
  - left. destruct (clean_param_one_space q H) as (t & n & _ & _ & _ & _ & E).
    eauto.
  - right. now apply clean_param_other.
Qed.

Lemma clean_params_loop_ok ps : forall vs acc,
  Forall2 (fun p v => clean_param p = Ok v) ps vs ->
  clean_params_loop ps acc = Ok (acc ++ vs).
Proof.
  induction ps as [|p ps IH]; intros vs acc H; inversion H; subst; simpl.
  - now rewrite app_nil_r.
  - rewrite H2. simpl. rewrite (IH _ _ H4), <- app_assoc. reflexivity.
Qed.

Lemma clean_params_loop_raise ps : forall acc,
  Forall (fun p => (exists v, clean_param p = Ok v)
                   \/ clean_param p = Raise ValueError) ps ->
  Exists (fun p => clean_param p = Raise ValueError) ps ->
  clean_params_loop ps acc = Raise ValueError.
Proof.
  induction ps as [|p ps IH]; intros acc Hall Hex; [inversion Hex|].
  inversion Hall as [|? ? Hp Hps]; subst. simpl.
  destruct Hp as [[v Hv]|Hp].
  - rewrite Hv. simpl. apply IH; [assumption|].
    inversion Hex; subst; [congruence|assumption].
  - now rewrite Hp.
Qed.

Lemma clean_params_loop_length ps : forall acc vs,
  clean_params_loop ps acc = Ok vs -> length vs = length acc + length ps.
Proof.
  induction ps as [|p ps IH]; intros acc vs H; simpl in H.
  - injection H as <-. simpl. lia.
  - destruct (clean_param p); simpl in H; [|discriminate].
    apply IH in H. rewrite H, length_app. simpl. lia.
Qed.

Lemma extract_nonempty parameters :
  parameters <> [] ->
  extract_function_parameters parameters
  = clean_params_loop (map strip (split "," parameters)) [].
Proof.
  intros H. unfold extract_function_parameters.
  destruct (str_eqb parameters "") eqn:E; [|reflexivity].
  apply str_eqb_nil in E. contradiction.
Qed.

Lemma pieces_ok qs :
  (forall q, In q qs -> one_space q) ->
  exists vs, Forall2 (fun p v => clean_param p = Ok v) (map strip qs) vs
             /\ Forall2 fields_of qs vs.
Proof.
  induction qs as [|q qs IH]; intros Hall.
  - exists []. split; constructor.
  - destruct IH as (vs & H1 & H2); [intros; apply Hall; now right|].
    destruct (clean_param_one_space q) as (t & n & E1 & E2 & E3 & E4 & E5);
      [apply Hall; now left|].
    exists (param_of t n :: vs). split; constructor; trivial.
    exists t, n. auto.
Qed.

(** When every piece has one space, every piece gives a parameter. *)
Lemma extract_ok parameters :
  parameters <> [] ->
  (forall piece, In piece (split "," parameters) -> one_space piece) ->
  exists ps,
    extract_function_parameters parameters = Ok ps
    /\ Forall2 fields_of (split "," parameters) ps.
Proof.
  intros Hne Hall. rewrite (extract_nonempty _ Hne).
  destruct (pieces_ok _ Hall) as (vs & H1 & H2).
  exists vs. split; [|assumption].
  now rewrite (clean_params_loop_ok _ _ _ H1).
Qed.

(** When a piece has no space or several, the call raises ValueError. *)
Lemma extract_raise parameters piece :
  parameters <> [] ->
  In piece (split "," parameters) -> ~ one_space piece ->
  extract_function_parameters parameters = Raise ValueError.
Proof.
  intros Hne Hin Hq. rewrite (extract_nonempty _ Hne).
  apply clean_params_loop_raise.
  - apply Forall_forall. intros p Hp. apply in_map_iff in Hp as (q' & <- & _).
    apply clean_param_stripped.
  - apply Exists_exists. exists (strip piece). split; [now apply in_map|].
    now apply clean_param_other.
Qed.

(** C5, as amended.  The piece is not split at its last whitespace: it
    is unpacked into the fields that single spaces separate, and there
    have to be exactly two.  For a parameter list that is not empty, the
    call returns if and only if every stripped piece has exactly one
    space; each piece then gives one parameter, made of the text before
    the space and the text after it, a leading [*] of the second going to
    the end of the first. *)
Theorem extract_function_parameters_fields parameters :
  parameters <> [] ->
  ((forall piece, In piece (split "," parameters) -> one_space piece)
   <-> exists ps, extract_function_parameters parameters = Ok ps)
  /\ (forall ps, extract_function_parameters parameters = Ok ps ->
                 Forall2 fields_of (split "," parameters) ps).
Proof.
  intros Hne.
  assert (Hall : forall ps, extract_function_parameters parameters = Ok ps ->
                 forall piece, In piece (split "," parameters) ->
                               one_space piece).
  { intros ps Hps piece Hin.
    destruct (Nat.eq_dec (count_char " " (strip piece)) 1) as [H|H];
      [exact H|].
    rewrite (extract_raise parameters piece Hne Hin H) in Hps. discriminate. }
  split; [split|].
  - intros H. destruct (extract_ok _ Hne H) as (ps & Hps & _). eauto.
  - intros (ps & Hps). eauto.
  - intros ps Hps.
    destruct (extract_ok _ Hne (Hall ps Hps)) as (ps' & Hps' & HF).
    congruence.
Qed.

Lemma extract_function_parameters_fields_witness :
  exists ps,
    extract_function_parameters "int a, char *b" = Ok ps
    /\ Forall2 fields_of (split "," "int a, char *b") ps.
Proof.
  assert (Hne : lit "int a, char *b" <> []) by discriminate.
  destruct (extract_function_parameters_fields "int a, char *b" Hne)
    as [[H _] HF].
  destruct H as [ps Hps].
  - intros piece [<-|[<-|[]]]; reflexivity.
  - exists ps. split; [exact Hps|exact (HF ps Hps)].
Defined.

(** C5 as the spec states it fails: a type of two words is not kept in
    [data_type], the call raises. *)
Lemma multi_word_type_rejected :
  extract_function_parameters "unsigned long x" = Raise ValueError
  /\ ~ (exists v, extract_function_parameters "unsigned long x" = Ok [v]
                  /\ data_type v = "unsigned long").
Proof.
  assert (H : extract_function_parameters "unsigned long x"
              = Raise ValueError) by reflexivity.
  split; [exact H|]. intros (v & Hv & _). rewrite H in Hv. discriminate.
Qed.

(** C6.  When a parameter list is not empty and one of its pieces,
    stripped, has no whitespace in it, the call raises ValueError: no
    list is returned, neither without the piece nor up to it. *)
Theorem extract_function_parameters_malformed parameters piece :
  parameters <> [] ->
  In piece (split "," parameters) ->
  forallb (fun c => negb (isspace c)) (strip piece) = true ->
  extract_function_parameters parameters = Raise ValueError.
Proof.
  intros Hne Hin Hws. apply (extract_raise parameters piece Hne Hin).
  unfold one_space. intros H1.
  assert (H0 : count_char " " (strip piece) = 0); [|lia].
  apply count_occ_not_In. intros HIn.
  rewrite forallb_forall in Hws. apply Hws in HIn. discriminate.
Qed.

Lemma extract_function_parameters_malformed_witness :
  extract_function_parameters "int a, void" = Raise ValueError.
Proof.
  apply (extract_function_parameters_malformed "int a, void" " void").
  - discriminate.
  - right. left. reflexivity.
  - reflexivity.
Defined.

Lemma tokens_from_delim a : forall cur c b,
  isspace c || is_punct c = true ->
  tokens_from (a ++ c :: b) cur = tokens_from a cur ++ tokens_from (c :: b) [].
Proof.
  induction a as [|x a IH]; intros cur c b Hc.
  - cbn [app tokens_from]. destruct (isspace c); [reflexivity|].
    simpl in Hc. rewrite Hc. reflexivity.
  - cbn [app tokens_from].
    destruct (isspace x); [|destruct (is_punct x)];
      rewrite (IH _ _ _ Hc); try reflexivity;
      rewrite <- app_assoc; reflexivity.
Qed.

Lemma tokens_from_spaces w : forall s,
  spaces w = true -> tokens_from (w ++ s) [] = tokens_from s [].
Proof.
  induction w as [|c w IH]; intros s H; [reflexivity|].
  simpl in H. apply andb_prop in H as [Hc Hw].
  cbn [app tokens_from]. rewrite Hc. now apply IH.
Qed.

Lemma tokens_from_trailing s w cur :
  spaces w = true -> tokens_from (s ++ w) cur = tokens_from s cur.
Proof.
  intros H. destruct w as [|c w]; [now rewrite app_nil_r|].
  assert (Hc : isspace c = true) by (simpl in H; now apply andb_prop in H).
  rewrite tokens_from_delim by (now rewrite Hc).
  rewrite <- (app_nil_r (c :: w)), (tokens_from_spaces _ [] H).
  apply app_nil_r.
Qed.

Lemma tokens_strip s : tokens (strip s) = tokens s.
Proof.
  destruct (strip_decomp s) as (w1 & w2 & H & H1 & H2).
  rewrite H at 2. unfold tokens.
  now rewrite tokens_from_spaces, tokens_from_trailing.
Qed.

Lemma tokens_comma x sep rest :
  spaces sep = true ->
  tokens (x ++ "," ++ sep ++ rest) = tokens x ++ [","%char] :: tokens rest.
Proof.
  intros H. unfold tokens.
  change (x ++ "," ++ sep ++ rest) with (x ++ ","%char :: (sep ++ rest)).
  rewrite tokens_from_delim by reflexivity.
  f_equal. cbn [tokens_from]. change (isspace ",") with false.
  change (is_punct ",") with true. cbv iota. cbn [flush app].
  now rewrite tokens_from_spaces.
Qed.

Lemma tokens_join sep xs : forall ys,
  spaces sep = true ->
  Forall2 (fun x y => tokens x = tokens y) xs ys ->
  tokens (join ("," ++ sep) xs) = tokens (join "," ys).
Proof.
  induction xs as [|x xs IH]; intros ys Hs H; inversion H as [|? y ? ys' Hx Hr];
    subst; [reflexivity|].
  destruct xs as [|x' xs]; inversion Hr as [|? y' ? ys'' Hx' Hr']; subst.
  - exact Hx.
  - rewrite !join_cons.
    rewrite <- app_assoc, (tokens_comma x sep _ Hs).
    change (lit "," ++ join "," (y' :: ys''))
      with ("," ++ [] ++ join "," (y' :: ys'')).
    rewrite (tokens_comma y [] _ eq_refl).
    rewrite Hx. do 2 f_equal. now apply IH.
Qed.

Lemma move_sigil_fields t n :
  ~ In " "%char t -> move_sigil (t ++ " " ++ n) = render (param_of t n).
Proof.
  change (t ++ " " ++ n) with (t ++ " "%char :: n).
  assert (R : render (param_of t n)
              = t ++ match n with
                     | d :: n' => if (d =? "*")%char
                                  then "*"%char :: " "%char :: n'
                                  else " "%char :: n
                     | [] => [" "%char]
                     end).
  { unfold render, param_of. destruct n as [|d n]; [reflexivity|].
    destruct (d =? "*")%char; [|reflexivity].
    cbn [data_type name]. now rewrite <- app_assoc. }
  rewrite R. clear R.
  induction t as [|c t IH]; intros Ht.
  - cbn [app move_sigil]. change (" " =? " ")%char with true. cbv iota.
    destruct n as [|d n]; [reflexivity|].
    destruct (d =? "*")%char; reflexivity.
  - cbn [app move_sigil].
    destruct (Ascii.eqb_spec c " ") as [->|Hc]; [exfalso; apply Ht; now left|].
    now rewrite IH by (intros H; apply Ht; now right).
Qed.

Lemma tokens_render t n :
  tokens (render (param_of t n)) = tokens (t ++ " " ++ n).
Proof.
  unfold render, param_of. destruct n as [|d n]; [reflexivity|].
  destruct (Ascii.eqb_spec d "*") as [->|Hd]; [|reflexivity].
  cbn [data_type name]. unfold tokens.
  rewrite <- app_assoc.
  change ("*" ++ " " ++ n) with ("*"%char :: (" " ++ n)).
  change (" " ++ "*"%char :: n) with (" "%char :: ("*"%char :: n)).
  rewrite !tokens_from_delim by reflexivity.
  reflexivity.
Qed.

Lemma fields_render qs : forall vs,
  Forall2 fields_of qs vs ->
  map render vs = map (fun piece => move_sigil (strip piece)) qs
  /\ Forall2 (fun x y => tokens x = tokens y) (map render vs) qs.
Proof.
  induction qs as [|q qs IH]; intros vs H; inversion H; subst;
    [split; [reflexivity|constructor]|].
  destruct (IH _ H4) as [E F].
  destruct H2 as (t & n & Eq & Ht & _ & _ & ->).
  split.
  - cbn [map]. now rewrite E, Eq, move_sigil_fields.
  - cbn [map]. constructor; [|assumption].
    now rewrite tokens_render, <- Eq, tokens_strip.
Qed.

Lemma fields_round_trip parameters ps :
  Forall2 fields_of (split "," parameters) ps ->
  param_str ps
  = join ", " (map (fun piece => move_sigil (strip piece))
                   (split "," parameters))
  /\ tokens (param_str ps) = tokens parameters.
Proof.
  intros H. unfold param_str.
  change (map (fun param => data_type param ++ " " ++ name param) ps)
    with (map render ps).
  destruct (fields_render _ _ H) as [E F]. split; [now rewrite E|].
  change (lit ", ") with ("," ++ " ").
  rewrite (tokens_join " " _ _ eq_refl F).
  change (lit ",") with [","%char]. now rewrite join_split.
Qed.

(** C7, as amended.  The parser accepts fewer lists than the spec calls
    well formed: each piece, once trimmed, has to have exactly one space
    character.  For a list that is not empty and whose pieces are such,
    parsing returns; writing the parameters as [type name], joined with a
    comma and a space, gives the trimmed pieces, a [*] in front of a name
    having gone to the end of its type; and that text has the tokens of
    the list, which is what the same up to whitespace means. *)
Theorem parameters_round_trip parameters :
  parameters <> [] ->
  (forall piece, In piece (split "," parameters) -> one_space piece) ->
  exists ps,
    extract_function_parameters parameters = Ok ps
    /\ param_str ps
       = join ", " (map (fun piece => move_sigil (strip piece))
                        (split "," parameters))
    /\ tokens (param_str ps) = tokens parameters.
Proof.
  intros Hne Hall.
  destruct (extract_ok _ Hne Hall) as (ps & Hps & HF).
  exists ps. split; [assumption|]. now apply fields_round_trip.
Qed.

Lemma parameters_round_trip_witness :
  exists ps,
    extract_function_parameters "int a,char *b , float c" = Ok ps
    /\ param_str ps = "int a, char* b, float c"
    /\ tokens (param_str ps) = tokens "int a,char *b , float c".
Proof.
  apply (parameters_round_trip "int a,char *b , float c").
  - discriminate.
  - intros piece [<-|[<-|[<-|[]]]]; reflexivity.
Defined.

(** C7 as the spec states it fails: a list whose pieces each have a type
    and a name with whitespace between them is well formed, and on a
    spaced sigil or on two spaces the parser raises, so that there is
    nothing to write back. *)
Lemma well_formed_list_rejected :
  (well_formed "int * x" = true
   /\ extract_function_parameters "int * x" = Raise ValueError)
  /\ (well_formed "int  a" = true
      /\ extract_function_parameters "int  a" = Raise ValueError)
  /\ ~ (forall parameters,
          well_formed parameters = true ->
          exists ps,
            extract_function_parameters parameters = Ok ps
            /\ tokens (param_str ps) = tokens parameters).
Proof.
  assert (H : extract_function_parameters "int * x" = Raise ValueError)
    by reflexivity.
  split; [split; [reflexivity|exact H]|].
  split; [split; reflexivity|].
  intros C. destruct (C "int * x" eq_refl) as (ps & Hps & _).
  rewrite H in Hps. discriminate.
Qed.

(** C9.  The empty string gives the empty list and does not raise; no
    other input gives the empty list; and a list that is not empty with a
    piece that cannot be unpacked raises instead. *)
Theorem extract_function_parameters_empty :
  extract_function_parameters "" = Ok []
  /\ (forall parameters,
        extract_function_parameters parameters = Ok [] -> parameters = [])
  /\ (forall parameters piece,
        parameters <> [] ->
        In piece (split "," parameters) -> ~ one_space piece ->
        extract_function_parameters parameters = Raise ValueError).
Proof.
  split; [reflexivity|]. split; [|exact extract_raise].
  intros parameters H. destruct parameters as [|c s]; [reflexivity|].
  rewrite extract_nonempty in H by discriminate.
  apply clean_params_loop_length in H. rewrite length_map in H.
  pose proof (split_length "," (c :: s)). simpl in *. lia.
Qed.

Lemma extract_function_parameters_empty_witness :
  extract_function_parameters "void" = Raise ValueError.
Proof.
  apply (proj2 (proj2 extract_function_parameters_empty) "void" "void").
  - discriminate.
  - left. reflexivity.
  - discriminate.
Defined.

(** ** The loop of [get_function_contents] *)

(** The inner loop adds one for each opening brace of the line and takes
    one off for each closing brace, and has no other effect. *)
Lemma count_braces_braces line : forall d,
  count_braces line d = (d + braces line)%Z.
Proof.
  unfold braces, count_char.
  induction line as [|c line IH]; intros d; [simpl; lia|].
  cbn [count_braces count_occ].
  destruct (Ascii.eqb_spec c "{") as [->|H1].
  - rewrite IH. destruct (ascii_dec "{" "{"); [|congruence].
    destruct (ascii_dec "{" "}"); [discriminate|]. lia.
  - destruct (Ascii.eqb_spec c "}") as [->|H2].
    + rewrite IH. destruct (ascii_dec "}" "{"); [discriminate|].
      destruct (ascii_dec "}" "}"); [|congruence]. lia.
    + rewrite IH. destruct (ascii_dec c "{"); [congruence|].
      destruct (ascii_dec c "}"); [congruence|]. lia.
Qed.

Section Scan.
Variable p : Pattern.

(** Before the header: the lines without a header are passed over. *)
Lemma scan_searching pre : forall rest st,
  inside_function st = false ->
  (forall l, In l pre -> is_header p l = false) ->
  scan_lines p (pre ++ rest) st = scan_lines p rest st.
Proof.
  induction pre as [|l pre IH]; intros rest st Hin Hall; [reflexivity|].
  simpl. rewrite Hin.
  pose proof (Hall l (or_introl eq_refl)) as Hl. unfold is_header in Hl.
  destruct (re_match p l); [discriminate|].
  apply IH; [assumption|]. intros; apply Hall; now right.
Qed.

(** On the header: the depth is 1 and the braces of the line are not
    counted. *)
Lemma scan_header line rest st :
  inside_function st = false ->
  is_header p line = true ->
  scan_lines p (line :: rest) st
  = scan_lines p rest
      {| found_function := true; inside_function := true;
         brace_count := 1%Z;
         function_body := function_body st ++ [strip line] |}.
Proof.
  intros Hin Hh. simpl. rewrite Hin. unfold is_header in Hh.
  destruct (re_match p line); [reflexivity|discriminate].
Qed.

Lemma scan_inside_step line rest f d b :
  scan_lines p (line :: rest)
    {| found_function := f; inside_function := true;
       brace_count := d; function_body := b |}
  = if (d + braces line =? 0)%Z
    then {| found_function := f; inside_function := false;
            brace_count := (d + braces line)%Z;
            function_body := b ++ [strip line] |}
    else scan_lines p rest
           {| found_function := f; inside_function := true;
              brace_count := (d + braces line)%Z;
              function_body := b ++ [strip line] |}.
Proof. rewrite <- count_braces_braces. reflexivity. Qed.

(** Inside the body, up to the line that closes it. *)
Lemma scan_closed body : forall closing post f d b,
  open_through body d = true ->
  depth_after (body ++ [closing]) d = 0%Z ->
  scan_lines p (body ++ closing :: post)
    {| found_function := f; inside_function := true;
       brace_count := d; function_body := b |}
  = {| found_function := f; inside_function := false;
       brace_count := 0%Z;
       function_body := b ++ map strip body ++ [strip closing] |}.
Proof.
  induction body as [|l body IH]; intros closing post f d b Hopen Hc.
  - simpl app at 1. rewrite scan_inside_step. simpl in Hc. rewrite Hc.
    reflexivity.
  - simpl in Hopen. change ((l :: body) ++ [closing])
      with (l :: (body ++ [closing])) in Hc. cbn [depth_after] in Hc.
    apply andb_prop in Hopen as [Hl Hopen].
    simpl app at 1. rewrite scan_inside_step.
    destruct (d + braces l =? 0)%Z; [discriminate|].
    rewrite (IH _ _ _ _ _ Hopen Hc). simpl. now rewrite <- app_assoc.
Qed.

(** Inside the body, when the depth is zero at the end of no line: the
    loop ends with the text, still inside. *)
Lemma scan_open rest : forall f d b,
  open_through rest d = true ->
  scan_lines p rest
    {| found_function := f; inside_function := true;
       brace_count := d; function_body := b |}
  = {| found_function := f; inside_function := true;
       brace_count := depth_after rest d;
       function_body := b ++ map strip rest |}.
Proof.
  induction rest as [|l rest IH]; intros f d b Hopen.
  - simpl. now rewrite app_nil_r.
  - simpl in Hopen. apply andb_prop in Hopen as [Hl Hopen].
    rewrite scan_inside_step.
    destruct (d + braces l =? 0)%Z; [discriminate|].
    rewrite (IH _ _ _ Hopen). simpl. now rewrite <- app_assoc.
Qed.

(** [found_function] is set by a header only. *)
Lemma scan_found lines : forall st,
  found_function (scan_lines p lines st) = true ->
  found_function st = true \/ exists l, In l lines /\ is_header p l = true.
Proof.
  induction lines as [|l lines IH]; intros [f [|] d b] H; [now left..| |].
  - rewrite scan_inside_step in H.
    destruct (d + braces l =? 0)%Z; [now left|].
    apply IH in H as [H|(l' & H1 & H2)]; [now left|].
    right. exists l'. split; [now right|assumption].
  - destruct (is_header p l) eqn:E.
    + right. exists l. split; [now left|assumption].
    + change (l :: lines) with ([l] ++ lines) in H.
      rewrite scan_searching in H;
        [|reflexivity|intros ? [<-|[]]; assumption].
      apply IH in H as [H|(l' & H1 & H2)]; [now left|].
      right. exists l'. split; [now right|assumption].
Qed.

(** After a header, [found_function] stays set. *)
Lemma scan_keeps_found lines : forall st,
  found_function st = true ->
  inside_function st = true ->
  found_function (scan_lines p lines st) = true.
Proof.
  induction lines as [|l lines IH]; intros [f i d b] Hf Hi; [exact Hf|].
  simpl in Hf, Hi. subst. rewrite scan_inside_step.
  destruct (d + braces l =? 0)%Z; [reflexivity|]. now apply IH.
Qed.

(** The first header of a text, if there is one. *)
Lemma first_header lines :
  (exists l, In l lines /\ is_header p l = true) ->
  exists pre header rest,
    lines = pre ++ header :: rest
    /\ (forall l, In l pre -> is_header p l = false)
    /\ is_header p header = true.
Proof.
  induction lines as [|l lines IH]; intros (x & Hin & Hx); [destruct Hin|].
  destruct (is_header p l) eqn:E.
  - exists [], l, lines. repeat split; [intros ? []|assumption].
  - destruct IH as (pre & h & rest & -> & Hpre & Hh).
    + destruct Hin as [->|Hin]; [congruence|]. eauto.
    + exists (l :: pre), h, rest. repeat split; [|assumption].
      intros y [<-|Hy]; auto.
Qed.

(** "Not found" is returned exactly when no line has a header. *)
Lemma scan_result_none lines :
  scan_result (scan_lines p lines scan_start) = None
  <-> forall l, In l lines -> is_header p l = false.
Proof.
  unfold scan_result. split.
  - intros H l Hin. destruct (is_header p l) eqn:E; [|reflexivity].
    destruct (first_header lines) as (pre & h & rest & -> & Hpre & Hh);
      [eauto|].
    rewrite scan_searching, scan_header in H by auto.
    rewrite scan_keeps_found in H by reflexivity. discriminate.
  - intros Hall.
    destruct (found_function (scan_lines p lines scan_start)) eqn:E;
      [|reflexivity].
    apply scan_found in E as [E|(l & Hin & Hl)]; [discriminate|].
    rewrite (Hall l Hin) in Hl. discriminate.
Qed.
End Scan.

Lemma slice_body {A} (h : A) mid c : slice_1_m1 (h :: mid ++ [c]) = mid.
Proof. unfold slice_1_m1. simpl. apply removelast_last. Qed.

Lemma filter_subset (f : str -> bool) l x :
  In x (filter f (removelast l)) -> In x l /\ f x = true.
Proof.
  intros H. apply filter_In in H as [H1 H2]. split; [|assumption].
  destruct l as [|a l]; [destruct H1|].
  rewrite (app_removelast_last a) at 1 by discriminate.
  apply in_or_app. now left.
Qed.

(** C1, as amended.  The code has no "unterminated body" outcome.
    "Not found" is returned if and only if no line of the text has the
    header.  When a line has the header and the depth is zero at the end
    of none of the lines after it, the result is therefore not "not
    found": it is a list of lines, each of them a stripped, non-empty line
    of the text after the header. *)
Theorem get_function_contents_unterminated content function func_pattern :
  re_compile (func_pattern_text function) = Ok func_pattern ->
  (get_function_contents content function = Ok None
   <-> forall l, In l (splitlines content) -> is_header func_pattern l = false)
  /\ forall pre header rest,
       splitlines content = pre ++ header :: rest ->
       (forall l, In l pre -> is_header func_pattern l = false) ->
       is_header func_pattern header = true ->
       open_through rest 1 = true ->
       exists lines,
         get_function_contents content function = Ok (Some lines)
         /\ forall l, In l lines -> In l (map strip rest) /\ l <> [].
Proof.
  intros Hc. unfold get_function_contents. rewrite Hc. cbn [bind]. split.
  - split.
    + intros H. injection H as H. now apply scan_result_none.
    + intros H. f_equal. now apply scan_result_none.
  - intros pre header rest Hl Hpre Hh Hopen. rewrite Hl.
    rewrite scan_searching, scan_header, scan_open by auto.
    unfold scan_result. cbn [found_function function_body scan_start app].
    eexists. split; [reflexivity|].
    intros l Hin. unfold slice_1_m1 in Hin. cbn [tl] in Hin.
    apply filter_subset in Hin as [H1 H2]. split; [assumption|].
    intros ->. discriminate.
Qed.

Lemma get_function_contents_unterminated_witness :
  get_function_contents no_closing_brace int_f <> Ok None
  /\ exists lines,
       get_function_contents no_closing_brace int_f = Ok (Some lines)
       /\ forall l, In l lines
                    -> In l (map strip ["  int x = 5;" : str;
                                        "  int y = 6;" : str])
                       /\ l <> [].
Proof.
  assert (Hc : re_compile (func_pattern_text int_f)
               = Ok {| p_regex := header_regex int_f; p_groups := 0 |})
    by (vm_compute; reflexivity).
  destruct (get_function_contents_unterminated no_closing_brace int_f _ Hc)
    as [Hnone Hopen].
  split.
  - intros H. apply Hnone with (l := "int f() {") in H.
    + vm_compute in H. discriminate H.
    + left. vm_compute. reflexivity.
  - apply (Hopen [] "int f() {").
    + vm_compute. reflexivity.
    + intros l [].
    + vm_compute. reflexivity.
    + vm_compute. reflexivity.
Defined.

(** C1 as the spec states it fails: the header is matched, the depth
    does not return to zero, and the result is a list, one line short. *)
Lemma unterminated_body_is_returned :
  exists func_pattern,
    re_compile (func_pattern_text int_f) = Ok func_pattern
    /\ is_header func_pattern "int f() {" = true
    /\ open_through ["  int x = 5;" : str; "  int y = 6;" : str] 1 = true
    /\ get_function_contents no_closing_brace int_f
       = Ok (Some ["int x = 5;" : str])
    /\ get_function_contents no_closing_brace int_f <> Ok None.
Proof.
  eexists. split; [vm_compute; reflexivity|].
  split; [vm_compute; reflexivity|].
  split; [vm_compute; reflexivity|].
  assert (H : get_function_contents no_closing_brace int_f
              = Ok (Some ["int x = 5;" : str]))
    by (vm_compute; reflexivity).
  split; [exact H|]. rewrite H. discriminate.
Qed.

(** C8.  The depth is 1 after the header line, whose own braces are not
    counted, and each later line adds its opening braces and takes off its
    closing braces.  When a line has the header (the first such line
    counts) and, after it, [closing] is the first line at whose end the
    depth is zero, the result is the list of the lines between the two,
    stripped, without the empty ones.  In particular the three-line text
    of the spec gives the one line [int x = 5;], and the braces of a
    nested block do not end the body. *)
Theorem get_function_contents_body
        content function func_pattern pre header body closing post :
  re_compile (func_pattern_text function) = Ok func_pattern ->
  splitlines content = pre ++ header :: body ++ closing :: post ->
  (forall l, In l pre -> is_header func_pattern l = false) ->
  is_header func_pattern header = true ->
  open_through body 1 = true ->
  depth_after (body ++ [closing]) 1 = 0%Z ->
  get_function_contents content function
  = Ok (Some (filter nonempty (map strip body))).
Proof.
  intros Hc Hl Hpre Hh Hopen Hclose. unfold get_function_contents.
  rewrite Hc, Hl. cbn [bind].
  rewrite scan_searching, scan_header, scan_closed by auto.
  unfold scan_result. cbn [found_function function_body scan_start app].
  now rewrite slice_body.
Qed.

Lemma get_function_contents_body_witness :
  get_function_contents three_lines int_f = Ok (Some ["int x = 5;" : str])
  /\ get_function_contents nested_block int_f
     = Ok (Some ["if (x) {" : str; "y = 1; }" : str; "return 0;" : str]).
Proof.
  split.
  - eapply (get_function_contents_body
              three_lines int_f _ [] "int f() {" ["  int x = 5;" : str]
              "}" []).
    + vm_compute. reflexivity.
    + vm_compute. reflexivity.
    + intros l [].
    + vm_compute. reflexivity.
    + vm_compute. reflexivity.
    + vm_compute. reflexivity.
  - eapply (get_function_contents_body
              nested_block int_f _ ["#include <stdio.h>" : str; [] ]
              "int f() {"
              ["  if (x) {" : str; "    y = 1; }" : str; [];
               "  return 0;" : str]
              "}" ["int g() {" : str; "}" : str]).
    + vm_compute. reflexivity.
    + vm_compute. reflexivity.
    + intros l [<-|[<-|[]]]; vm_compute; reflexivity.
    + vm_compute. reflexivity.
    + vm_compute. reflexivity.
    + vm_compute. reflexivity.
Defined.

(** ** The matcher and the language of an expression *)

Section Complete.
Context {R : Type}.
Variable n0 : nat.

(** A repetition succeeds exactly when some number of iterations, each
    consuming a character, leads to where the continuation succeeds. *)
Lemma star_loop_complete
      (body : str -> caps -> (str -> caps -> option R) -> option R) L :
  complete_for body L ->
  forall k, uniform k -> forall fuel s c,
    length s <= fuel ->
    (star_loop body k fuel s c <> None
     <-> exists s', iter L s s' /\ succeeds k s').
Proof.
  intros Hb k Hk. induction fuel as [|fuel IH]; intros s c Hlen.
  - destruct s; [|simpl in Hlen; lia]. simpl. split.
    + intros H. exists []. split; [constructor|now apply (Hk [] c)].
    + intros (s' & Hi & Hs).
      inversion Hi; subst; [apply Hs|simpl in *; lia].
  - simpl.
    set (k' := fun s' c' =>
                 if length s' <? length s then star_loop body k fuel s' c'
                 else None).
    assert (Hk' : uniform k').
    { intros t c1 H c2. unfold k' in *.
      destruct (Nat.ltb_spec (length t) (length s)) as [Hlt|]; [|congruence].
      apply IH; [lia|]. apply IH in H; [exact H|lia]. }
    pose proof (Hb k' Hk' s c) as Hbody.
    split.
    + intros H. destruct (body s c k') eqn:E.
      * destruct Hbody as [Hbody _].
        destruct Hbody as (t & Ht & Hst); [congruence|].
        pose proof (Hst []) as H0. unfold k' in H0.
        destruct (Nat.ltb_spec (length t) (length s)) as [Hlt|];
          [|congruence].
        apply IH in H0 as (s' & Hi & Hs); [|lia].
        exists s'. split; [|assumption]. econstructor; eassumption.
      * exists s. split; [constructor|now apply (Hk s c)].
    + intros (s' & Hi & Hs). inversion Hi; subst.
      * destruct (body s' c k'); [discriminate|apply Hs].
      * assert (Hb' : body s c k' <> None).
        { apply Hbody. exists t. split; [assumption|].
          intros c'. unfold k'.
          destruct (Nat.ltb_spec (length t) (length s)) as [Hlt|]; [|lia].
          apply IH; [lia|]. eauto. }
        destruct (body s c k'); [discriminate|congruence].
Qed.

(** The matcher succeeds exactly on the language of the expression. *)
Theorem rmatch_complete r : complete_for (R := R) (rmatch n0 r) (lang n0 r).
Proof.
  induction r as [|p| | |r1 IH1 r2 IH2|r1 IH1 r2 IH2|r1 IH1|i r1 IH1];
    intros k Hk s c; simpl.
  - split; [intros H; exists s; split; [reflexivity|now apply (Hk s c)]|].
    intros (s' & -> & Hs). apply Hs.
  - destruct s as [|a s].
    + split; [congruence|]. intros (s' & (a & Ha & _) & _). discriminate.
    + destruct (cmatch p a) eqn:E; split.
      * intros H. exists s. split; [now exists a|now apply (Hk s c)].
      * intros (s' & (a' & Ha & _) & Hs). injection Ha as <- <-. apply Hs.
      * congruence.
      * intros (s' & (a' & Ha & Hm) & _). injection Ha as <- <-. congruence.
  - destruct (Nat.eqb_spec (length s) n0) as [He|He]; split.
    + intros H. exists s. split; [now split|now apply (Hk s c)].
    + intros (s' & (-> & _) & Hs). apply Hs.
    + congruence.
    + intros (s' & (_ & Hl) & _). contradiction.
  - destruct s as [|a [|b s]].
    + split;
        [intros H; exists []; split;
         [now split; [|left]|now apply (Hk [] c)]|].
      intros (s' & (-> & _) & Hs). apply Hs.
    + destruct (Ascii.eqb_spec a NL) as [->|Ha]; split.
      * intros H. exists [NL].
        split; [now split; [|right]|now apply (Hk [NL] c)].
      * intros (s' & (-> & _) & Hs). apply Hs.
      * congruence.
      * intros (s' & (_ & [H|H]) & _); [discriminate|].
        injection H as ->. congruence.
    + split; [congruence|].
      intros (s' & (_ & [H|H]) & _); discriminate.
  - set (k' := fun s' c' => rmatch n0 r2 s' c' k).
    assert (Hk' : uniform k').
    { intros t c1 H c2. unfold k' in *.
      apply (IH2 k Hk). now apply (IH2 k Hk) in H. }
    etransitivity; [exact (IH1 k' Hk' s c)|]. split.
    + intros (t & Ht & Hs). pose proof (Hs []) as H0. unfold k' in H0.
      apply (IH2 k Hk) in H0 as (s' & Hs' & Hks). exists s'. eauto.
    + intros (s' & (t & H1 & H2) & Hs). exists t. split; [assumption|].
      intros c'. unfold k'. apply (IH2 k Hk). eauto.
  - pose proof (IH1 k Hk s c) as H1. pose proof (IH2 k Hk s c) as H2.
    destruct (rmatch n0 r1 s c k) eqn:E.
    + split; [intros _|congruence].
      destruct H1 as [H1 _].
      destruct H1 as (s' & Hl & Hs); [congruence|]. eauto.
    + rewrite H2. split.
      * intros (s' & Hl & Hs). eauto.
      * intros (s' & [Hl|Hl] & Hs); [|eauto].
        exfalso. apply (proj2 H1); eauto.
  - apply star_loop_complete; auto.
  - set (k' := fun s' c' =>
                 k s' ((i, firstn (length s - length s') s) :: c')).
    assert (Hk' : uniform k').
    { intros t c1 H c2. unfold k' in *. now apply (Hk t _ H). }
    etransitivity; [exact (IH1 k' Hk' s c)|]. split.
    + intros (s' & Hl & Hs). exists s'. split; [assumption|].
      apply (Hk s' _ (Hs [])).
    + intros (s' & Hl & Hs). exists s'. split; [assumption|].
      intros c'. apply Hs.
Qed.

(** What the matcher returns is what the continuation returned. *)
Lemma star_loop_from_k
      (body : str -> caps -> (str -> caps -> option R) -> option R) :
  (forall k s c x, body s c k = Some x -> exists s' c', k s' c' = Some x) ->
  forall k fuel s c x,
    star_loop body k fuel s c = Some x -> exists s' c', k s' c' = Some x.
Proof.
  intros Hb k. induction fuel as [|fuel IH]; intros s c x H; simpl in H.
  - eauto.
  - destruct (body s c _) eqn:E; [|eauto].
    injection H as ->. apply Hb in E as (s' & c' & E).
    destruct (length s' <? length s); [eauto|discriminate].
Qed.

Lemma rmatch_from_k r : forall (k : str -> caps -> option R) s c x,
  rmatch n0 r s c k = Some x -> exists s' c', k s' c' = Some x.
Proof.
  induction r as [|p| | |r1 IH1 r2 IH2|r1 IH1 r2 IH2|r1 IH1|i r1 IH1];
    intros k s c x H; simpl in H.
  - eauto.
  - destruct s as [|a s]; [discriminate|].
    destruct (cmatch p a); [eauto|discriminate].
  - destruct (length s =? n0); [eauto|discriminate].
  - destruct s as [|a [|b s]]; [eauto| |discriminate].
    destruct (a =? NL)%char; [eauto|discriminate].
  - apply IH1 in H as (s' & c' & H). eauto.
  - destruct (rmatch n0 r1 s c k) eqn:E; [|eauto].
    injection H as ->. eauto.
  - eapply star_loop_from_k; eauto.
  - apply IH1 in H as (s' & c' & H). eauto.
Qed.
End Complete.

(** [pattern.match(s)] is not [None] exactly when a prefix of [s] is in
    the language of the pattern. *)
Theorem re_match_lang p s :
  re_match p s <> None <-> exists s', lang (length s) (p_regex p) s s'.
Proof.
  unfold re_match.
  etransitivity; [apply rmatch_complete; intros t c _ c'; discriminate|].
  split; [intros (s' & H & _); eauto|].
  intros (s' & H). exists s'. split; [assumption|]. intros c. discriminate.
Qed.

(** A match object has the number of groups of its pattern. *)
Lemma re_match_groups p s m : re_match p s = Some m -> m_groups m = p_groups p.
Proof.
  unfold re_match. intros H. apply rmatch_from_k in H as (s' & c' & H).
  injection H as <-. reflexivity.
Qed.

(** ** The header pattern *)

Lemma step_plain c items rep :
  special c = false ->
  step (nstate items rep) c = Parsing (nstate (Chr (CLit c) :: items) false).
Proof.
  intros H. unfold special in H. simpl in H.
  repeat (apply orb_false_elim in H as [? H]).
  unfold step, step_normal. simpl ps_mode. cbv iota.
  repeat match goal with
         | E : (c =? ?x)%char = false |- _ => rewrite E; clear E
         end.
  reflexivity.
Qed.

(** A plain text is read as the sequence of its characters. *)
Lemma run_plain t : forall items rep,
  plain t = true ->
  fold_left pstep t (Parsing (nstate items rep))
  = Parsing (nstate (rev (lits t) ++ items)
                    (match t with [] => rep | _ => false end)).
Proof.
  induction t as [|c t IH]; intros items rep H; [reflexivity|].
  simpl in H. apply andb_prop in H as [Hc Ht]. apply negb_true_iff in Hc.
  change (fold_left pstep (c :: t) (Parsing (nstate items rep)))
    with (fold_left pstep t (step (nstate items rep) c)).
  rewrite (step_plain _ _ _ Hc), (IH _ _ Ht).
  simpl. rewrite <- app_assoc. simpl. now destruct t.
Qed.

(** The four fixed parts of the text of the header pattern. *)
Lemma run_open :
  fold_left pstep "^\s*" (Parsing pstart)
  = Parsing (nstate [Star WS; Bol] true).
Proof. reflexivity. Qed.

Lemma run_gap items rep :
  fold_left pstep "\s+" (Parsing (nstate items rep))
  = Parsing (nstate (Plus WS :: items) true).
Proof. reflexivity. Qed.

Lemma run_paren items rep :
  fold_left pstep "\s*\(" (Parsing (nstate items rep))
  = Parsing (nstate (Chr (CLit "("%char) :: Star WS :: items) false).
Proof. reflexivity. Qed.

Lemma run_brace items rep :
  fold_left pstep "\)\s*\{" (Parsing (nstate items rep))
  = Parsing (nstate (Chr (CLit "{"%char) :: Star WS :: Chr (CLit ")"%char)
                       :: items) false).
Proof. reflexivity. Qed.

(** With plain fields, [re.compile] returns and the pattern is
    [header_regex]. *)
Lemma compile_header function :
  plain (return_type function) = true ->
  plain (function_name function) = true ->
  plain (param_str (parameters function)) = true ->
  re_compile (func_pattern_text function)
  = Ok {| p_regex := header_regex function; p_groups := 0 |}.
Proof.
  intros H1 H2 H3. unfold re_compile, func_pattern_text.
  rewrite !fold_left_app, run_open.
  rewrite (run_plain _ _ _ H1), run_gap.
  rewrite (run_plain _ _ _ H2), run_paren.
  rewrite (run_plain _ _ _ H3), run_brace.
  unfold pfinish, nstate, frame_regex, header_regex. simpl.
  repeat (rewrite ?rev_app_distr, ?rev_involutive; simpl).
  rewrite <- !app_assoc. reflexivity.
Qed.

Section Lang.
Variable n0 : nat.

Lemma cmatch_WS a : cmatch (CIn false [CSpace true]) a = isspace a.
Proof. simpl. now destruct (isspace a). Qed.

Lemma iter_WS s s' :
  iter (lang n0 WS) s s' <-> exists w, s = w ++ s' /\ spaces w = true.
Proof.
  split.
  - induction 1 as [s|s t u (a & -> & Ha) _ _ (w & -> & Hw)].
    + now exists [].
    + exists (a :: w). split; [reflexivity|].
      rewrite cmatch_WS in Ha. simpl. now rewrite Ha.
  - intros (w & -> & Hw). induction w as [|a w IH]; [constructor|].
    simpl in Hw. apply andb_prop in Hw as [Ha Hw].
    apply iter_more with (t := w ++ s'); [|simpl; lia|auto].
    exists a. split; [reflexivity|]. now rewrite cmatch_WS.
Qed.

Lemma lang_lit_last c s s' :
  lang n0 (seq_of [Chr (CLit c)]) s s' <-> s = c :: s'.
Proof.
  simpl. split.
  - intros (t & (a & -> & Ha) & ->). now apply Ascii.eqb_eq in Ha as ->.
  - intros ->. exists s'. split; [|reflexivity].
    exists c. split; [reflexivity|apply Ascii.eqb_refl].
Qed.

Lemma lang_bol xs s s' :
  lang n0 (seq_of (Bol :: xs)) s s'
  <-> length s = n0 /\ lang n0 (seq_of xs) s s'.
Proof.
  simpl. split.
  - intros (t & (-> & H) & H'). auto.
  - intros (H & H'). exists s. auto.
Qed.

Lemma lang_lit c xs s s' :
  lang n0 (seq_of (Chr (CLit c) :: xs)) s s'
  <-> exists u, s = c :: u /\ lang n0 (seq_of xs) u s'.
Proof.
  simpl. split.
  - intros (t & (a & -> & Ha) & H'). apply Ascii.eqb_eq in Ha as ->. eauto.
  - intros (u & -> & H'). exists u. split; [|assumption].
    exists c. split; [reflexivity|apply Ascii.eqb_refl].
Qed.

Lemma lang_lits t xs : forall s s',
  lang n0 (seq_of (lits t ++ xs)) s s'
  <-> exists u, s = t ++ u /\ lang n0 (seq_of xs) u s'.
Proof.
  induction t as [|c t IH]; intros s s'.
  - simpl app. split; [eauto|]. now intros (u & -> & H).
  - change (lits (c :: t) ++ xs) with (Chr (CLit c) :: (lits t ++ xs)).
    rewrite lang_lit. split.
    + intros (u & -> & H). apply IH in H as (v & -> & H).
      exists v. split; [reflexivity|assumption].
    + intros (u & -> & H). exists (t ++ u). split; [reflexivity|].
      apply IH. eauto.
Qed.

Lemma lang_star_ws xs s s' :
  lang n0 (seq_of (Star WS :: xs)) s s'
  <-> exists w u, s = w ++ u /\ spaces w = true /\ lang n0 (seq_of xs) u s'.
Proof.
  change (lang n0 (seq_of (Star WS :: xs)) s s')
    with (exists t, iter (lang n0 WS) s t /\ lang n0 (seq_of xs) t s').
  split.
  - intros (t & Hi & H). apply iter_WS in Hi as (w & -> & Hw). eauto.
  - intros (w & u & -> & Hw & H). exists u. split; [|assumption].
    apply iter_WS. eauto.
Qed.

Lemma lang_plus_ws xs s s' :
  lang n0 (seq_of (Plus WS :: xs)) s s'
  <-> exists w u, s = w ++ u /\ spaces w = true /\ w <> []
                  /\ lang n0 (seq_of xs) u s'.
Proof.
  change (lang n0 (seq_of (Plus WS :: xs)) s s')
    with (exists t,
             (exists t',
                 (exists a, s = a :: t'
                            /\ cmatch (CIn false [CSpace true]) a = true)
                 /\ iter (lang n0 WS) t' t)
             /\ lang n0 (seq_of xs) t s').
  split.
  - intros (t & (t' & (a & -> & Ha) & Hi) & H).
    apply iter_WS in Hi as (w & -> & Hw). rewrite cmatch_WS in Ha.
    exists (a :: w), t. repeat split; [|discriminate|assumption].
    simpl. now rewrite Ha.
  - intros (w & u & -> & Hw & Hne & H). destruct w as [|a w]; [congruence|].
    simpl in Hw. apply andb_prop in Hw as [Ha Hw].
    exists u. split; [|assumption]. exists (w ++ u). split.
    + exists a. split; [reflexivity|now rewrite cmatch_WS].
    + apply iter_WS. eauto.
Qed.
Lemma iter_chr p s s' :
  iter (lang n0 (Chr p)) s s'
  <-> exists w, s = w ++ s' /\ forallb (cmatch p) w = true.
Proof.
  split.
  - induction 1 as [s|s t u (a & -> & Ha) _ _ (w & -> & Hw)].
    + now exists [].
    + exists (a :: w). split; [reflexivity|]. simpl. now rewrite Ha.
  - intros (w & -> & Hw). induction w as [|a w IH]; [constructor|].
    simpl in Hw. apply andb_prop in Hw as [Ha Hw].
    apply iter_more with (t := w ++ s'); [|simpl; lia|auto].
    exists a. auto.
Qed.

Lemma lang_star_chr p xs s s' :
  lang n0 (seq_of (Star (Chr p) :: xs)) s s'
  <-> exists w u, s = w ++ u /\ forallb (cmatch p) w = true
                  /\ lang n0 (seq_of xs) u s'.
Proof.
  change (lang n0 (seq_of (Star (Chr p) :: xs)) s s')
    with (exists t, iter (lang n0 (Chr p)) s t /\ lang n0 (seq_of xs) t s').
  split.
  - intros (t & Hi & H). apply iter_chr in Hi as (w & -> & Hw). eauto.
  - intros (w & u & -> & Hw & H). exists u. split; [|assumption].
    apply iter_chr. eauto.
Qed.
End Lang.

(** The language of [header_regex], at the beginning of a line. *)
Lemma lang_header function line s' :
  lang (length line) (header_regex function) line s'
  <-> exists w0 w1 w2 w3,
      line = w0 ++ return_type function ++ w1 ++ function_name function
             ++ w2 ++ "(" ++ param_str (parameters function) ++ ")"
             ++ w3 ++ "{" ++ s'
      /\ spaces w0 = true /\ spaces w1 = true /\ w1 <> []
      /\ spaces w2 = true /\ spaces w3 = true.
Proof.
  unfold header_regex. simpl app at 1.
  rewrite lang_bol, lang_star_ws.
  setoid_rewrite lang_lits. setoid_rewrite lang_plus_ws.
  setoid_rewrite lang_lits. setoid_rewrite lang_star_ws.
  setoid_rewrite lang_lit. setoid_rewrite lang_lits.
  setoid_rewrite lang_lit. setoid_rewrite lang_star_ws.
  setoid_rewrite lang_lit_last.
  split.
  - intros (_ & w0 & u0 & -> & Hw0 & u1 & -> & w1 & u2 & -> & Hw1 & Hne
            & u3 & -> & w2 & u4 & -> & Hw2 & u5 & -> & u6 & -> & u7 & ->
            & w3 & u8 & -> & Hw3 & ->).
    exists w0, w1, w2, w3. repeat split; assumption.
  - intros (w0 & w1 & w2 & w3 & -> & Hw0 & Hw1 & Hne & Hw2 & Hw3).
    split; [reflexivity|].
    exists w0; eexists; split; [reflexivity|]; split; [assumption|].
    eexists; split; [reflexivity|].
    exists w1; eexists; split; [reflexivity|]; split; [assumption|];
      split; [assumption|].
    eexists; split; [reflexivity|].
    exists w2; eexists; split; [reflexivity|]; split; [assumption|].
    eexists; split; [reflexivity|].
    eexists; split; [reflexivity|].
    eexists; split; [reflexivity|].
    exists w3; eexists; split; [reflexivity|]; split; [assumption|].
    reflexivity.
Qed.

(** With plain fields, the lines with a header are those of
    [header_shape]. *)
Lemma is_header_shape function line :
  is_header {| p_regex := header_regex function; p_groups := 0 |} line = true
  <-> header_shape function line.
Proof.
  unfold is_header, header_shape.
  pose proof (re_match_lang
                {| p_regex := header_regex function; p_groups := 0 |} line)
    as H.
  simpl p_regex in H. setoid_rewrite lang_header in H.
  destruct (re_match _ line).
  - split; [intros _|reflexivity].
    destruct H as [H _].
    destruct H as (s' & w0 & w1 & w2 & w3 & H); [discriminate|].
    exists w0, w1, w2, w3, s'. exact H.
  - split; [discriminate|]. intros (w0 & w1 & w2 & w3 & rest & Hs).
    exfalso. apply (proj2 H); [|reflexivity]. eauto 10.
Qed.

(** C4, as amended.  The fields of the record are put into the pattern
    as they are, so the statement is for fields without a character that
    [re.compile] reads specially.  Then the pattern compiles; a line has
    the header if and only if it is made of whitespace, the return type,
    whitespace (at least one character), the name, whitespace, [(], the
    parameters written [type name] and joined with a comma and a space,
    [)], whitespace, [{] and any text; and "not found" is returned if and
    only if no line of the text is so made. *)
Theorem get_function_contents_header content function :
  plain (return_type function) = true ->
  plain (function_name function) = true ->
  plain (param_str (parameters function)) = true ->
  exists func_pattern,
    re_compile (func_pattern_text function) = Ok func_pattern
    /\ (forall line,
          is_header func_pattern line = true <-> header_shape function line)
    /\ (get_function_contents content function = Ok None
        <-> forall line, In line (splitlines content)
                         -> ~ header_shape function line).
Proof.
  intros H1 H2 H3.
  exists {| p_regex := header_regex function; p_groups := 0 |}.
  split; [now apply compile_header|].
  split; [intros line; apply is_header_shape|].
  unfold get_function_contents. rewrite (compile_header _ H1 H2 H3).
  cbn [bind]. split.
  - intros H line Hin Hs. injection H as H.
    apply scan_result_none with (l := line) in H; [|assumption].
    apply is_header_shape in Hs. congruence.
  - intros H. f_equal. apply scan_result_none. intros l Hin.
    destruct (is_header _ l) eqn:E; [|reflexivity].
    exfalso. apply (H l Hin). now apply is_header_shape.
Qed.

Lemma get_function_contents_header_witness :
  exists func_pattern,
    re_compile (func_pattern_text int_f) = Ok func_pattern
    /\ (forall line,
          is_header func_pattern line = true <-> header_shape int_f line)
    /\ (get_function_contents other_spacing int_f = Ok None
        <-> forall line, In line (splitlines other_spacing)
                         -> ~ header_shape int_f line).
Proof.
  apply (get_function_contents_header other_spacing int_f); reflexivity.
Defined.

(** C4 as the spec states it fails, in both directions: a line that is
    not the serialization of the record is found, and, for a return type
    with a [*], the line that is the serialization is not found. *)
Lemma header_match_is_not_verbatim :
  (lstrip "int  f ()  { return 0;" <> canonical_header int_f
   /\ In (lit "int  f ()  { return 0;") (splitlines other_spacing)
   /\ get_function_contents other_spacing int_f = Ok (Some []))
  /\ get_function_contents (canonical_header int_ptr_make ++ [NL] ++ "}")
                           int_ptr_make
     = Ok None.
Proof.
  split; [split; [discriminate|split]|].
  - left. reflexivity.
  - vm_compute. reflexivity.
  - vm_compute. reflexivity.
Qed.

(** ** Evaluating the matcher on a text that is not wholly known *)

Section Eval.
Context {R : Type}.
Variable n0 : nat.
Implicit Types k : str -> caps -> option R.

Lemma rmatch_cons x xs s c k :
  rmatch n0 (seq_of (x :: xs)) s c k
  = rmatch n0 x s c (fun s' c' => rmatch n0 (seq_of xs) s' c' k).
Proof. reflexivity. Qed.

Lemma rmatch_nil s c k : rmatch n0 (seq_of []) s c k = k s c.
Proof. reflexivity. Qed.

Lemma rmatch_chr p a s c k :
  rmatch n0 (Chr p) (a :: s) c k = if cmatch p a then k s c else None.
Proof. reflexivity. Qed.

Lemma rmatch_group i r s c k :
  rmatch n0 (Group i r) s c k
  = rmatch n0 r s c
      (fun s' c' => k s' ((i, firstn (length s - length s') s) :: c')).
Proof. reflexivity. Qed.

Lemma rmatch_opt r s c k :
  rmatch n0 (Opt r) s c k
  = match rmatch n0 r s c k with Some x => Some x | None => k s c end.
Proof. reflexivity. Qed.

Lemma star_loop_S
      (body : str -> caps -> (str -> caps -> option R) -> option R)
      k fuel s c :
  star_loop body k (S fuel) s c
  = match body s c
            (fun s' c' =>
               if length s' <? length s then star_loop body k fuel s' c'
               else None) with
    | Some x => Some x
    | None => k s c
    end.
Proof. reflexivity. Qed.

(** A repetition of a character class makes no iteration where the
    class does not match. *)
Lemma star_loop_stop p k fuel s c :
  stops p s ->
  star_loop (rmatch n0 (Chr p)) k fuel s c = k s c.
Proof.
  intros H. destruct fuel; [reflexivity|]. simpl.
  destruct s as [|a s]; [reflexivity|]. simpl in H. now rewrite H.
Qed.

(** A greedy repetition of a character class takes all of [w] when what
    follows matches after it. *)
Lemma star_loop_greedy p k w : forall fuel rest c x,
  forallb (cmatch p) w = true ->
  stops p rest ->
  length (w ++ rest) <= fuel ->
  k rest c = Some x ->
  star_loop (rmatch n0 (Chr p)) k fuel (w ++ rest) c = Some x.
Proof.
  induction w as [|a w IH]; intros fuel rest c x Hw Hs Hf Hk.
  - simpl app. now rewrite star_loop_stop.
  - simpl in Hw. apply andb_prop in Hw as [Ha Hw].
    destruct fuel as [|fuel]; [simpl in Hf; lia|].
    change ((a :: w) ++ rest) with (a :: (w ++ rest)).
    rewrite star_loop_S, rmatch_chr, Ha.
    destruct (Nat.ltb_spec (length (w ++ rest)) (length (a :: w ++ rest)))
      as [_|Hl]; [|simpl in Hl; lia].
    rewrite (IH fuel rest c x); auto. simpl in Hf. lia.
Qed.

Lemma star_greedy p k w rest c x :
  forallb (cmatch p) w = true ->
  stops p rest ->
  k rest c = Some x ->
  rmatch n0 (Star (Chr p)) (w ++ rest) c k = Some x.
Proof. intros. simpl. apply star_loop_greedy; auto. Qed.

Lemma star_stop p k s c :
  stops p s -> rmatch n0 (Star (Chr p)) s c k = k s c.
Proof. intros. simpl. now apply star_loop_stop. Qed.

Lemma plus_greedy p k a w rest c x :
  cmatch p a = true ->
  forallb (cmatch p) w = true ->
  stops p rest ->
  k rest c = Some x ->
  rmatch n0 (Plus (Chr p)) (a :: w ++ rest) c k = Some x.
Proof.
  intros Ha Hw Hs Hk. unfold Plus.
  change (rmatch n0 (Seq (Chr p) (Star (Chr p))) (a :: w ++ rest) c k)
    with (if cmatch p a then rmatch n0 (Star (Chr p)) (w ++ rest) c k
          else None).
  rewrite Ha. now apply star_greedy.
Qed.

Lemma plus_greedy_word p k w rest c x :
  w <> [] ->
  forallb (cmatch p) w = true ->
  stops p rest ->
  k rest c = Some x ->
  rmatch n0 (Plus (Chr p)) (w ++ rest) c k = Some x.
Proof.
  intros Hne Hw. destruct w as [|a w]; [congruence|].
  simpl in Hw. apply andb_prop in Hw as [Ha Hw].
  now apply plus_greedy.
Qed.

(** A repetition of a character class fails when what follows fails
    wherever the repetition stops. *)
Lemma star_loop_fail p k w : forall fuel rest c,
  stops p rest ->
  (forall u t c', w = u ++ t -> k (t ++ rest) c' = None) ->
  star_loop (rmatch n0 (Chr p)) k fuel (w ++ rest) c = None.
Proof.
  induction w as [|a w IH]; intros fuel rest c Hs Hk.
  - simpl app. rewrite star_loop_stop by assumption.
    apply (Hk [] []). reflexivity.
  - assert (Hhere : k ((a :: w) ++ rest) c = None)
      by (apply (Hk []); reflexivity).
    destruct fuel as [|fuel]; [exact Hhere|].
    change ((a :: w) ++ rest) with (a :: (w ++ rest)) in *.
    rewrite star_loop_S, rmatch_chr.
    destruct (cmatch p a); [|exact Hhere].
    destruct (length (w ++ rest) <? length (a :: w ++ rest));
      [|exact Hhere].
    rewrite IH; [exact Hhere|assumption|].
    intros u t c' ->. apply (Hk (a :: u)). reflexivity.
Qed.

Lemma star_fail p k w rest c :
  stops p rest ->
  (forall u t c', w = u ++ t -> k (t ++ rest) c' = None) ->
  rmatch n0 (Star (Chr p)) (w ++ rest) c k = None.
Proof. intros. simpl. now apply star_loop_fail. Qed.

(** The text of a group. *)
Lemma firstn_consumed (w s' : str) :
  firstn (length (w ++ s') - length s') (w ++ s') = w.
Proof.
  rewrite length_app, Nat.add_sub. rewrite firstn_app, Nat.sub_diag.
  simpl. now rewrite firstn_all, app_nil_r.
Qed.

(** No keyword begins another one, so that the keyword that is there is
    the only branch of the alternation that matches. *)
Lemma rmatch_keyword kw rest c k :
  In kw primitive_keywords ->
  rmatch n0 KEYWORD (kw ++ rest) c k = k rest c.
Proof.
  intros H. unfold primitive_keywords in H. simpl in H.
  repeat (destruct H as [<-|H]; [cbn; now destruct (k rest c)|]).
  destruct H.
Qed.
End Eval.

(** ** [extract_function_variables] *)

Lemma compile_decl :
  re_compile extract_function_variables_pattern
  = Ok {| p_regex := decl_regex; p_groups := 4 |}.
Proof. vm_compute. reflexivity. Qed.

Lemma compile_call :
  re_compile call_pattern = Ok {| p_regex := call_regex; p_groups := 1 |}.
Proof. vm_compute. reflexivity. Qed.

Ltac all_chars a := destruct a as [[] [] [] [] [] [] [] []].

Lemma spaces_ws w :
  spaces w = true -> forallb (cmatch (CIn false [CSpace true])) w = true.
Proof.
  apply forallb_impl. intros a H. now rewrite cmatch_WS.
Qed.

Lemma name_char_namechar a : is_name_char a = true -> cmatch NAMECHAR a = true.
Proof.
  unfold is_name_char. simpl. destruct (isword a), (a =? "*")%char;
    intros H; try reflexivity; discriminate H.
Qed.

Lemma name_char_not_space a : is_name_char a = true -> isspace a = false.
Proof. all_chars a; intros H; try reflexivity; discriminate H. Qed.

Lemma space_not_namechar a : isspace a = true -> cmatch NAMECHAR a = false.
Proof. all_chars a; intros H; try reflexivity; discriminate H. Qed.

Lemma space_not_equals a : isspace a = true -> (a =? "=")%char = false.
Proof. all_chars a; intros H; try reflexivity; discriminate H. Qed.

Lemma spaces_no_equals w : spaces w = true -> ~ In "="%char w.
Proof.
  intros H Hin. unfold spaces in H. rewrite forallb_forall in H.
  apply H in Hin. discriminate Hin.
Qed.

Lemma spaces_suffix u t : spaces (u ++ t) = true -> spaces t = true.
Proof.
  unfold spaces. rewrite forallb_app. intros H.
  now apply andb_prop in H as [_ H].
Qed.

(** What follows a name: whitespace, then [;] or [=]. *)
Lemma stops_after_name w c rest :
  spaces w = true -> c = ";"%char \/ c = "="%char ->
  stops NAMECHAR (w ++ c :: rest).
Proof.
  intros Hw Hc. destruct w as [|a w].
  - simpl app. destruct Hc as [->| ->]; reflexivity.
  - simpl in Hw. apply andb_prop in Hw as [Ha _].
    exact (space_not_namechar _ Ha).
Qed.

Lemma keyword_head kw :
  In kw primitive_keywords ->
  exists a t, kw = a :: t /\ isspace a = false.
Proof.
  intros H. unfold primitive_keywords in H. simpl in H.
  repeat (destruct H as [<-|H]; [eexists _, _; split; reflexivity|]).
  destruct H.
Qed.

(** *** The match object of a declaration *)

Section Decl.
Variables w0 kw w1 nm : str.
Hypothesis Hw0 : spaces w0 = true.
Hypothesis Hkw : In kw primitive_keywords.
Hypothesis Hw1 : spaces w1 = true.
Hypothesis Hw1n : w1 <> [].
Hypothesis Hnm : forallb is_name_char nm = true.
Hypothesis Hnmn : nm <> [].

(** The beginning of a declaration: whitespace, the keyword, whitespace
    and the name. *)
Lemma match_decl_head {R : Type} n0 tail (K : str -> caps -> option R) x :
  n0 = length (w0 ++ kw ++ w1 ++ nm ++ tail) ->
  stops NAMECHAR tail ->
  rmatch n0
         (seq_of [Opt (Group 3 (seq_of [Star WS; Chr (CLit "="%char); Star WS;
                                        Group 4 (seq_of [Plus (Chr NOSEMI)])]));
                  Star WS; Chr (CLit ";"%char)])
         tail [(2, nm); (1, kw)] K = Some x ->
  rmatch n0 decl_regex (w0 ++ kw ++ w1 ++ nm ++ tail) [] K = Some x.
Proof.
  intros Hn Htail Hrest.
  unfold decl_regex, WS in *.
  rewrite rmatch_cons. cbn [rmatch]. rewrite Hn, Nat.eqb_refl, <- Hn.
  rewrite rmatch_cons.
  apply star_greedy; [now apply spaces_ws| |].
  { destruct (keyword_head kw Hkw) as (a & t & -> & Ha). simpl.
    now rewrite Ha. }
  rewrite rmatch_cons, rmatch_group, rmatch_keyword by assumption.
  rewrite firstn_consumed.
  rewrite rmatch_cons.
  apply plus_greedy_word; [assumption|now apply spaces_ws| |].
  { destruct nm as [|a t]; [congruence|]. simpl in Hnm.
    apply andb_prop in Hnm as [Ha _]. simpl.
    now rewrite (name_char_not_space _ Ha). }
  rewrite rmatch_cons, rmatch_group, rmatch_cons.
  apply plus_greedy_word;
    [assumption|exact (forallb_impl _ _ _ name_char_namechar Hnm)
     |assumption|].
  rewrite rmatch_nil, firstn_consumed.
  exact Hrest.
Qed.

Variables w2 rest : str.
Hypothesis Hw2 : spaces w2 = true.

(** The match object for a declaration without initializer. *)
Lemma match_decl_plain :
  let line := w0 ++ kw ++ w1 ++ nm ++ w2 ++ ";"%char :: rest in
  re_match {| p_regex := decl_regex; p_groups := 4 |} line
  = Some {| m_groups := 4;
            m_whole := firstn (length line - length rest) line;
            m_caps := [(2, nm); (1, kw)] |}.
Proof.
  intros line. unfold re_match. cbn [p_regex p_groups].
  apply match_decl_head; [reflexivity|apply stops_after_name; auto|].
  unfold WS.
  rewrite rmatch_cons, rmatch_opt.
  rewrite rmatch_group, rmatch_cons, star_fail.
  - rewrite rmatch_cons.
    apply star_greedy; [now apply spaces_ws|reflexivity|].
    rewrite rmatch_cons, rmatch_chr. cbn [cmatch].
    rewrite Ascii.eqb_refl, rmatch_nil. reflexivity.
  - reflexivity.
  - intros u t c' E. rewrite rmatch_cons.
    destruct t as [|a t]; simpl app; rewrite rmatch_chr; cbn [cmatch].
    + reflexivity.
    + rewrite E in Hw2. apply spaces_suffix in Hw2. simpl in Hw2.
      apply andb_prop in Hw2 as [Ha _].
      now rewrite (space_not_equals _ Ha).
Qed.

Variables w3 v : str.
Hypothesis Hw3 : spaces w3 = true.
Hypothesis Hv0 : starts_dark v = true.
Hypothesis Hv : ~ In ";"%char v.

(** The match object for a declaration with an initializer. *)
Lemma match_decl_init :
  let line := w0 ++ kw ++ w1 ++ nm ++ w2 ++ "="%char :: w3 ++ v
              ++ ";"%char :: rest in
  re_match {| p_regex := decl_regex; p_groups := 4 |} line
  = Some {| m_groups := 4;
            m_whole := firstn (length line - length rest) line;
            m_caps := [(3, w2 ++ "="%char :: w3 ++ v); (4, v);
                       (2, nm); (1, kw)] |}.
Proof.
  intros line. unfold re_match. cbn [p_regex p_groups].
  apply match_decl_head; [reflexivity|apply stops_after_name; auto|].
  assert (Hhead : stops (CIn false [CSpace true]) (v ++ ";"%char :: rest)).
  { destruct v as [|d v']; [discriminate|]. simpl in Hv0. simpl.
    now destruct (isspace d). }
  assert (Hv' : forallb (cmatch NOSEMI) v = true).
  { apply forallb_forall. intros a Ha. simpl.
    destruct (Ascii.eqb_spec a ";") as [->|]; [contradiction|reflexivity]. }
  assert (Hvn : v <> []) by (destruct v; [discriminate|discriminate]).
  unfold WS.
  rewrite rmatch_cons, rmatch_opt.
  match goal with
  | |- match ?e with _ => _ end = Some ?x =>
      assert (E : e = Some x); [|now rewrite E]
  end.
  rewrite rmatch_group, rmatch_cons.
  apply star_greedy; [now apply spaces_ws|reflexivity|].
  rewrite rmatch_cons, rmatch_chr. cbn [cmatch]. rewrite Ascii.eqb_refl.
  rewrite rmatch_cons.
  apply star_greedy; [now apply spaces_ws|exact Hhead|].
  rewrite rmatch_cons, rmatch_group, rmatch_cons.
  apply plus_greedy_word; [exact Hvn|exact Hv'|reflexivity|].
  rewrite rmatch_nil, firstn_consumed, rmatch_nil.
  replace (w2 ++ "="%char :: w3 ++ v ++ ";"%char :: rest)
    with ((w2 ++ "="%char :: w3 ++ v) ++ ";"%char :: rest)
    by (now rewrite <- app_assoc, <- app_comm_cons, <- app_assoc).
  rewrite firstn_consumed.
  rewrite rmatch_cons, star_stop by reflexivity.
  rewrite rmatch_cons, rmatch_chr. cbn [cmatch].
  rewrite Ascii.eqb_refl, rmatch_nil. reflexivity.
Qed.
End Decl.

(** *** The initializer *)

Lemma split_app_nosep sep w v :
  ~ In sep w ->
  split sep (w ++ v)
  = match split sep v with
    | x :: xs => (w ++ x) :: xs
    | [] => [w]
    end.
Proof.
  induction w as [|c w IH]; intros Hn.
  - simpl app. destruct (split sep v) eqn:E; [|reflexivity].
    exfalso. exact (split_not_nil _ _ E).
  - cbn [app split].
    destruct (Ascii.eqb_spec c sep) as [->|Hne];
      [exfalso; apply Hn; now left|].
    rewrite IH by (intros H; apply Hn; now right).
    destruct (split sep v); reflexivity.
Qed.

Lemma lstrip_spaces w s : spaces w = true -> lstrip (w ++ s) = lstrip s.
Proof.
  induction w as [|c w IH]; intros H; [reflexivity|].
  simpl in H. apply andb_prop in H as [Hc Hw].
  cbn [app lstrip]. rewrite Hc. now apply IH.
Qed.

Lemma strip_spaces w s : spaces w = true -> strip (w ++ s) = strip s.
Proof. intros H. unfold strip. now rewrite lstrip_spaces. Qed.

(** What [var_value] is for the text of group 3. *)
Lemma initializer_text w2 w3 v :
  spaces w2 = true -> spaces w3 = true ->
  strip (last_piece (split "="%char (w2 ++ "="%char :: w3 ++ v)))
  = initializer_of v.
Proof.
  intros H2 H3. unfold initializer_of.
  rewrite split_app_sep by now apply spaces_no_equals.
  rewrite split_app_nosep by now apply spaces_no_equals.
  destruct (split "=" v) as [|x [|y xs]] eqn:E.
  - exfalso. exact (split_not_nil _ _ E).
  - unfold last_piece. cbn [last]. now apply strip_spaces.
  - reflexivity.
Qed.

(** *** The call pattern *)

Lemma cmatch_IDSTART a : cmatch IDSTART a = is_id_start a.
Proof. all_chars a; reflexivity. Qed.

Lemma cmatch_IDCHAR a : cmatch IDCHAR a = is_id_char a.
Proof. all_chars a; reflexivity. Qed.

Lemma forallb_NOTRPAREN s :
  forallb (cmatch NOTRPAREN) s = true <-> ~ In ")"%char s.
Proof.
  rewrite forallb_forall. split.
  - intros H Hin. apply H in Hin. discriminate Hin.
  - intros H a Ha. simpl.
    destruct (Ascii.eqb_spec a ")") as [->|]; [contradiction|reflexivity].
Qed.

Section CallLang.
Variable n0 : nat.

(** The language of the identifier of [call_regex], followed by [xs]. *)
Lemma lang_identifier i xs s s' :
  lang n0 (seq_of (Group i (seq_of [Chr IDSTART; Star (Chr IDCHAR)]) :: xs))
       s s'
  <-> exists a id u, s = a :: id ++ u /\ is_id_start a = true
                     /\ forallb is_id_char id = true
                     /\ lang n0 (seq_of xs) u s'.
Proof.
  change (lang n0 (seq_of (Group i (seq_of [Chr IDSTART; Star (Chr IDCHAR)])
                             :: xs)) s s')
    with (exists t,
             (exists t1, (exists a, s = a :: t1 /\ cmatch IDSTART a = true)
                         /\ lang n0 (seq_of [Star (Chr IDCHAR)]) t1 t)
             /\ lang n0 (seq_of xs) t s').
  split.
  - intros (t & (t1 & (a & -> & Ha) & Hs) & H).
    apply lang_star_chr in Hs as (id & u & -> & Hid & Hu).
    simpl in Hu. subst t. rewrite cmatch_IDSTART in Ha.
    exists a, id, u. repeat split; try assumption.
    apply forallb_forall. intros x Hx. rewrite <- cmatch_IDCHAR.
    rewrite forallb_forall in Hid. auto.
  - intros (a & id & u & -> & Ha & Hid & H).
    exists u. split; [|assumption]. exists (id ++ u). split.
    + exists a. split; [reflexivity|now rewrite cmatch_IDSTART].
    + apply lang_star_chr. exists id, u. repeat split.
      apply forallb_forall. intros x Hx. rewrite cmatch_IDCHAR.
      rewrite forallb_forall in Hid. auto.
Qed.
End CallLang.

(** The texts that the call pattern matches are those of [call_shape]. *)
Lemma call_shape_match t :
  re_match {| p_regex := call_regex; p_groups := 1 |} t <> None
  <-> call_shape t.
Proof.
  rewrite re_match_lang. cbn [p_regex]. unfold call_regex, call_shape.
  split.
  - intros (s' & H).
    apply lang_bol in H as [_ H].
    apply lang_star_ws in H as (w0 & u0 & -> & Hw0 & H).
    apply lang_identifier in H as (a & id & u1 & -> & Ha & Hid & H).
    apply lang_star_ws in H as (w1 & u2 & -> & Hw1 & H).
    apply lang_lit in H as (u3 & -> & H).
    apply lang_star_chr in H as (args & u4 & -> & Hargs & H).
    apply lang_lit in H as (u5 & -> & H).
    exists w0, a, id, w1, args, u5. repeat split; try assumption.
    now apply forallb_NOTRPAREN.
  - intros (w0 & a & id & w1 & args & rest & -> & Hw0 & Ha & Hid & Hw1 & Hargs).
    exists rest. apply lang_bol. split; [reflexivity|].
    apply lang_star_ws. exists w0. eexists. repeat split; [assumption|].
    apply lang_identifier. exists a, id. eexists. repeat split; try assumption.
    apply lang_star_ws. exists w1. eexists. repeat split; [assumption|].
    apply lang_lit. eexists. split; [reflexivity|].
    apply lang_star_chr. exists args. eexists. split; [reflexivity|].
    split; [now apply forallb_NOTRPAREN|].
    apply lang_lit. eexists. split; [reflexivity|].
    apply lang_star_ws. exists [], rest. repeat split.
Qed.

(** *** The loop *)

Lemma variables_loop_acc p fp ls : forall acc acc' vs,
  variables_loop p fp ls acc = Ok vs ->
  variables_loop p fp ls (acc' ++ acc) = Ok (acc' ++ vs).
Proof.
  induction ls as [|l ls IH]; intros acc acc' vs H; simpl in *.
  - injection H as <-. reflexivity.
  - destruct (re_match p l) as [m|]; [|now apply IH].
    destruct (variable_of_match fp m) as [x|e]; simpl in *; [|discriminate].
    rewrite <- app_assoc. now apply IH.
Qed.

Lemma variables_loop_app p fp l1 : forall l2 acc vs1,
  variables_loop p fp l1 acc = Ok vs1 ->
  variables_loop p fp (l1 ++ l2) acc = variables_loop p fp l2 vs1.
Proof.
  induction l1 as [|l l1 IH]; intros l2 acc vs1 H; simpl in *.
  - now injection H as <-.
  - destruct (re_match p l) as [m|]; [|now apply IH].
    destruct (variable_of_match fp m) as [x|e]; simpl in *; [|discriminate].
    now apply IH.
Qed.

(** A line that gives the variable [x], between lines that give [vs1]
    and [vs2]. *)
Lemma variables_loop_line p fp before line after m x vs1 vs2 :
  variables_loop p fp before [] = Ok vs1 ->
  variables_loop p fp after [] = Ok vs2 ->
  re_match p line = Some m ->
  variable_of_match fp m = Ok x ->
  variables_loop p fp (before ++ line :: after) [] = Ok (vs1 ++ x :: vs2).
Proof.
  intros H1 H2 Hm Hx. rewrite (variables_loop_app _ _ _ _ _ _ H1).
  cbn [variables_loop]. rewrite Hm, Hx. cbn [bind].
  change (x :: vs2) with ([x] ++ vs2). rewrite app_assoc.
  rewrite <- (app_nil_r (vs1 ++ [x])) at 1.
  now apply variables_loop_acc.
Qed.




(** Whenever the initializer of a declaration matches the call pattern,
    [match.group(2)] is evaluated on a match object of a pattern with one
    group, and raises. *)
Lemma call_initializer_raises func_pattern m t :
  p_groups func_pattern = 1 ->
  m_groups m = 4 ->
  cap_lookup 3 (m_caps m) = Some t ->
  nonempty t = true ->
  re_match func_pattern (strip (last_piece (split "="%char t))) <> None ->
  variable_of_match func_pattern m = Raise IndexError.
Proof.
  intros Hp Hm H3 Ht Hcall. unfold variable_of_match, group.
  rewrite Hm, H3. cbn [Nat.eqb Nat.leb bind]. rewrite Ht. cbn [bind text_of].
  destruct (re_match func_pattern _) as [m'|] eqn:E; [|congruence].
  apply re_match_groups in E. rewrite E, Hp. reflexivity.
Qed.

(** C2.  The claim fails on the code: on the line of the spec the loop
    reaches the test for a call, the test succeeds, and the evaluation of
    [match.group(2)] raises IndexError, so that no variable is returned
    for [sum]. *)
Theorem call_initializer_index_error :
  extract_function_variables ["int total = sum(5, 10);" : str]
  = Raise IndexError.
Proof. vm_compute. reflexivity. Qed.

(** ** [format_func_declar] *)

(** C3.  The claim fails on the code: the name is matched by [\w+],
    which a [*] is not part of, so that the snippet is not matched and the
    result is "Function declaration not found". *)
Theorem pointer_name_not_found :
  format_func_declar "int *make(void)" = Ok None.
Proof. vm_compute. reflexivity. Qed.

(** With the sigil on the type the snippet is matched, and the parameter
    list [void], which has no second field, raises. *)
Lemma pointer_type_void :
  format_func_declar "int* make(void)" = Raise ValueError
  /\ format_func_declar "int* make()"
     = Ok (Some (Build_Function "int*" "make" [])).
Proof. split; vm_compute; reflexivity. Qed.

(** ** More on [extract_function_parameters] *)

(** [rstrip] removes a part at the end, and [strip] leaves a text that
    does not begin with whitespace. *)
Lemma rstrip_prefix x : exists w, x = rstrip x ++ w.
Proof.
  unfold rstrip. destruct (lstrip_suffix (rev x)) as (w & H & _).
  exists (rev w). apply (f_equal (@rev ascii)) in H.
  rewrite rev_involutive, rev_app_distr in H. exact H.
Qed.

Lemma strip_head s :
  match strip s with [] => True | c :: _ => isspace c = false end.
Proof.
  unfold strip. pose proof (lstrip_head s) as H.
  destruct (rstrip_prefix (lstrip s)) as (w & Hw).
  destruct (rstrip (lstrip s)) as [|c t]; [exact I|].
  rewrite Hw in H. exact H.
Qed.

(** A text that neither begins nor ends with whitespace is its own
    [strip]. *)
Lemma strip_fixed a s b :
  isspace a = false -> isspace b = false ->
  strip (a :: s ++ [b]) = a :: s ++ [b].
Proof.
  intros Ha Hb. unfold strip, rstrip.
  rewrite (lstrip_id (a :: s ++ [b])) by exact Ha.
  assert (E : rev (a :: s ++ [b]) = b :: rev (a :: s)).
  { change (a :: s ++ [b]) with ((a :: s) ++ [b]). now rewrite rev_app_distr. }
  rewrite E, lstrip_id by exact Hb.
  rewrite <- E. apply rev_involutive.
Qed.

Lemma strip_fixed_one a : isspace a = false -> strip [a] = [a].
Proof. intros Ha. unfold strip, rstrip. simpl. rewrite Ha. simpl. now rewrite Ha. Qed.

(** In a stripped piece with two fields the first is not empty. *)
Lemma fields_of_type piece v :
  fields_of piece v ->
  value v = None /\ data_type v <> []
  /\ ~ In " "%char (data_type v) /\ ~ In " "%char (name v).
Proof.
  intros (t & n & E & Ht & Hn & Hne & ->).
  assert (Ht0 : t <> []).
  { intros ->. pose proof (strip_head piece) as H. rewrite E in H.
    discriminate H. }
  unfold param_of. destruct n as [|c rest]; [congruence|].
  destruct (Ascii.eqb_spec c "*") as [->|Hc]; simpl.
  - repeat split.
    + intros H. destruct t; discriminate.
    + intros H. apply in_app_or in H as [H|[H|[]]]; [auto|discriminate].
    + intros H. apply Hn. now right.
  - repeat split; auto.
Qed.

Lemma extract_ok_pieces parameters ps :
  parameters <> [] ->
  extract_function_parameters parameters = Ok ps ->
  Forall2 fields_of (split "," parameters) ps.
Proof.
  intros Hne Hps.
  assert (Hall : forall piece, In piece (split "," parameters) ->
                               one_space piece).
  { intros piece Hin.
    destruct (Nat.eq_dec (count_char " " (strip piece)) 1) as [H|H];
      [exact H|].
    rewrite (extract_raise parameters piece Hne Hin H) in Hps. discriminate. }
  destruct (extract_ok _ Hne Hall) as (ps' & Hps' & HF). congruence.
Qed.

(** X1.  When a parameter list that is not empty is parsed, there is
    one parameter for each piece, that is one more than the list has
    commas; every parameter has no value, a type that is not empty, and
    no space in its type or in its name. *)
Theorem extract_function_parameters_invariants parameters ps :
  extract_function_parameters parameters = Ok ps ->
  parameters <> [] ->
  length ps = S (count_char "," parameters)
  /\ forall v, In v ps ->
       value v = None /\ data_type v <> []
       /\ ~ In " "%char (data_type v) /\ ~ In " "%char (name v).
Proof.
  intros Hps Hne. pose proof (extract_ok_pieces _ _ Hne Hps) as HF. split.
  - rewrite <- (Forall2_length HF). apply split_length.
  - intros v Hin.
    assert (H : exists piece, fields_of piece v).
    { clear -HF Hin. induction HF as [|q w qs ws Hq _ IH]; [destruct Hin|].
      destruct Hin as [<-|Hin]; eauto. }
    destruct H as (piece & H). exact (fields_of_type _ _ H).
Qed.

Lemma extract_function_parameters_invariants_witness :
  length [Build_Variable "int" "a" None; Build_Variable "char*" "b" None]
  = S (count_char "," "int a, char *b")
  /\ forall v,
       In v [Build_Variable "int" "a" None; Build_Variable "char*" "b" None] ->
       value v = None /\ data_type v <> []
       /\ ~ In " "%char (data_type v) /\ ~ In " "%char (name v).
Proof.
  apply (extract_function_parameters_invariants "int a, char *b").
  - reflexivity.
  - discriminate.
Defined.

(** The only exception of the loop is ValueError. *)
Lemma clean_params_loop_error ps : forall acc e,
  Forall (fun p => (exists v, clean_param p = Ok v)
                   \/ clean_param p = Raise ValueError) ps ->
  clean_params_loop ps acc = Raise e -> e = ValueError.
Proof.
  induction ps as [|p ps IH]; intros acc e Hall H; [discriminate|].
  inversion Hall as [|? ? Hp Hps]; subst. simpl in H.
  destruct Hp as [[v Hv]|Hp].
  - rewrite Hv in H. simpl in H. eauto.
  - rewrite Hp in H. simpl in H. congruence.
Qed.

(** X2.  The only exception that [extract_function_parameters] raises
    is ValueError: [param_name[0]] is never evaluated on an empty name. *)
Theorem extract_function_parameters_only_ValueError parameters e :
  extract_function_parameters parameters = Raise e -> e = ValueError.
Proof.
  intros H. destruct parameters as [|c s]; [discriminate|].
  rewrite extract_nonempty in H by discriminate.
  apply clean_params_loop_error in H; [assumption|].
  apply Forall_forall. intros p Hp. apply in_map_iff in Hp as (q & <- & _).
  apply clean_param_stripped.
Qed.

Lemma extract_function_parameters_only_ValueError_witness :
  extract_function_parameters "int a, void" = Raise ValueError
  /\ ValueError = ValueError.
Proof.
  assert (H : extract_function_parameters "int a, void" = Raise ValueError)
    by reflexivity.
  split; [exact H|].
  exact (extract_function_parameters_only_ValueError "int a, void" _ H).
Defined.

Lemma token_no_char t c :
  token t = true -> (isspace c = true \/ c = ","%char) -> ~ In c t.
Proof.
  unfold token. rewrite forallb_forall. intros H Hc Hin.
  apply H in Hin. apply andb_prop in Hin as [H1 H2].
  destruct Hc as [Hc| ->]; [now rewrite Hc in H1|discriminate].
Qed.

Lemma token_head t :
  token t = true -> match t with [] => True | a :: _ => isspace a = false end.
Proof.
  destruct t as [|a t]; [trivial|]. simpl. intros H.
  apply andb_prop in H as [H _]. apply andb_prop in H as [H _].
  now apply negb_true_iff.
Qed.

Lemma token_last t a :
  token (t ++ [a]) = true -> isspace a = false.
Proof.
  intros H. unfold token in H. rewrite forallb_app in H.
  apply andb_prop in H as [_ H]. simpl in H.
  apply andb_prop in H as [H _]. apply andb_prop in H as [H _].
  now apply negb_true_iff.
Qed.

(** One piece [t n], with [t] and [n] tokens that are not empty. *)
Lemma extract_one_piece t n :
  token t = true -> token n = true -> t <> [] -> n <> [] ->
  extract_function_parameters (t ++ " " ++ n) = Ok [param_of t n].
Proof.
  intros Ht Hn Ht0 Hn0.
  assert (Hsp : forall x, token x = true -> ~ In " "%char x)
    by (intros x Hx; apply token_no_char; auto).
  assert (Hco : forall x, token x = true -> ~ In ","%char x)
    by (intros x Hx; apply token_no_char; auto).
  rewrite extract_nonempty by (destruct t; [congruence|discriminate]).
  rewrite split_none.
  2:{ intros H. apply in_app_or in H as [H|[H|H]];
        [now apply (Hco t)|discriminate|now apply (Hco n)]. }
  cbn [map clean_params_loop].
  assert (Hs : strip (t ++ " " ++ n) = t ++ " " ++ n).
  { destruct t as [|a t]; [congruence|].
    destruct (exists_last Hn0) as (n' & b & ->).
    replace ((a :: t) ++ " " ++ n' ++ [b])
      with (a :: (t ++ " " ++ n') ++ [b])
      by (simpl; now rewrite <- !app_assoc).
    apply strip_fixed; [exact (token_head _ Ht)|exact (token_last _ _ Hn)]. }
  rewrite Hs. unfold clean_param.
  change (t ++ " " ++ n) with (t ++ " "%char :: n).
  rewrite split_app_sep, split_none by auto.
  unfold param_of. destruct n as [|c rest]; [congruence|].
  cbn [bind]. destruct (c =? "*")%char; reflexivity.
Qed.

Lemma word_not_space a : isword a = true -> isspace a = false.
Proof. all_chars a; intros H; try reflexivity; discriminate H. Qed.

Lemma word_token n : forallb isword n = true -> token n = true.
Proof.
  apply forallb_impl. intros a H. rewrite (word_not_space a H). simpl.
  destruct (Ascii.eqb_spec a ",") as [->|]; [discriminate H|reflexivity].
Qed.

Lemma token_app a b : token a = true -> token b = true -> token (a ++ b) = true.
Proof. unfold token. intros Ha Hb. now rewrite forallb_app, Ha, Hb. Qed.

Lemma count_char_app c a b :
  count_char c (a ++ b) = count_char c a + count_char c b.
Proof. apply count_occ_app. Qed.

Lemma count_char_none c a : ~ In c a -> count_char c a = 0.
Proof. apply count_occ_not_In. Qed.

(** X3.  The forms of a pointer parameter.  For a type [t] without
    whitespace and comma and a name [n] of word characters, [t *n] and
    [t* n] both give the type [t*] and the name [n]; [t * n] raises
    ValueError; and of [t **n] only the first [*] goes to the type. *)
Theorem pointer_parameter_forms t n :
  token t = true -> t <> [] ->
  forallb isword n = true -> n <> [] ->
  extract_function_parameters (t ++ " *" ++ n)
  = Ok [Build_Variable (t ++ "*") n None]
  /\ extract_function_parameters (t ++ "* " ++ n)
     = Ok [Build_Variable (t ++ "*") n None]
  /\ extract_function_parameters (t ++ " * " ++ n) = Raise ValueError
  /\ extract_function_parameters (t ++ " **" ++ n)
     = Ok [Build_Variable (t ++ "*") ("*" ++ n) None].
Proof.
  intros Ht Ht0 Hw Hn0. pose proof (word_token n Hw) as Hn.
  assert (Hstar : forall x, token x = true -> token ("*" ++ x) = true)
    by (intros x Hx; now apply (token_app "*" x)).
  split; [|split; [|split]].
  - change (t ++ " *" ++ n) with (t ++ " " ++ ("*" ++ n)).
    rewrite extract_one_piece; auto. discriminate.
  - replace (t ++ "* " ++ n) with ((t ++ "*") ++ " " ++ n)
      by (now rewrite <- app_assoc).
    rewrite extract_one_piece; auto.
    + unfold param_of. destruct n as [|c rest]; [congruence|].
      simpl in Hw. apply andb_prop in Hw as [Hc _].
      destruct (Ascii.eqb_spec c "*") as [->|]; [discriminate Hc|reflexivity].
    + now apply token_app.
    + destruct t; discriminate.
  - assert (Hsp : forall x, token x = true -> ~ In " "%char x)
      by (intros x Hx; apply token_no_char; auto).
    assert (Hco : forall x, token x = true -> ~ In ","%char x)
      by (intros x Hx; apply token_no_char; auto).
    apply (extract_raise _ (t ++ " * " ++ n)).
    + destruct t; [congruence|discriminate].
    + rewrite split_none; [now left|].
      intros H. apply in_app_or in H as [H|H]; [now apply (Hco t)|].
      destruct H as [H|[H|[H|H]]]; try discriminate. now apply (Hco n).
    + unfold one_space.
      assert (Hs : strip (t ++ " * " ++ n) = t ++ " * " ++ n).
      { destruct t as [|a t]; [congruence|].
        destruct (exists_last Hn0) as (n' & b & ->).
        replace ((a :: t) ++ " * " ++ n' ++ [b])
          with (a :: (t ++ " * " ++ n') ++ [b])
          by (simpl; now rewrite <- !app_assoc).
        apply strip_fixed;
          [exact (token_head _ Ht)|exact (token_last _ _ Hn)]. }
      rewrite Hs.
      change (t ++ " * " ++ n) with (t ++ [" "%char; "*"%char; " "%char] ++ n).
      rewrite !count_char_app, (count_char_none " " t), (count_char_none " " n)
        by auto.
      discriminate.
  - change (t ++ " **" ++ n) with (t ++ " " ++ ("**" ++ n)).
    rewrite extract_one_piece; auto. discriminate.
Qed.

Lemma pointer_parameter_forms_witness :
  extract_function_parameters "int *x" = Ok [Build_Variable "int*" "x" None]
  /\ extract_function_parameters "int* x" = Ok [Build_Variable "int*" "x" None]
  /\ extract_function_parameters "int * x" = Raise ValueError
  /\ extract_function_parameters "int **x"
     = Ok [Build_Variable "int*" "*x" None].
Proof.
  apply (pointer_parameter_forms "int" "x"); try reflexivity; discriminate.
Defined.


(** ** More on [get_function_contents] *)

Section ScanMore.
Variable p : Pattern.

(** The lines that the loop stores are lines of the text, stripped. *)
Lemma scan_body_lines lines : forall st,
  exists seg,
    function_body (scan_lines p lines st) = function_body st ++ map strip seg
    /\ incl seg lines.
Proof.
  induction lines as [|l lines IH]; intros st.
  - exists []. split; [simpl; now rewrite app_nil_r|apply incl_refl].
  - destruct st as [f [|] d b].
    + rewrite scan_inside_step.
      destruct (d + braces l =? 0)%Z.
      * exists [l]. split; [reflexivity|]. intros x [<-|[]]. now left.
      * destruct (IH {| found_function := f; inside_function := true;
                        brace_count := (d + braces l)%Z;
                        function_body := b ++ [strip l] |}) as (seg & E & Hi).
        exists (l :: seg). split.
        -- rewrite E. simpl. now rewrite <- app_assoc.
        -- intros x [<-|Hx]; [now left|right; now apply Hi].
    + destruct (is_header p l) eqn:Eh.
      * rewrite scan_header by auto. cbn [function_body].
        destruct (IH {| found_function := true; inside_function := true;
                        brace_count := 1%Z;
                        function_body := b ++ [strip l] |}) as (seg & E & Hi).
        exists (l :: seg). split.
        -- rewrite E. simpl. now rewrite <- app_assoc.
        -- intros x [<-|Hx]; [now left|right; now apply Hi].
      * change (l :: lines) with ([l] ++ lines).
        rewrite scan_searching; [|reflexivity|intros ? [<-|[]]; assumption].
        destruct (IH {| found_function := f; inside_function := false;
                        brace_count := d; function_body := b |})
          as (seg & E & Hi).
        exists seg. split; [exact E|]. intros x Hx. right. now apply Hi.
Qed.

(** Inside the body, what is stored so far plays no part. *)
Lemma scan_inside_body rest : forall f d b,
  scan_lines p rest
    {| found_function := f; inside_function := true;
       brace_count := d; function_body := b |}
  = let st := scan_lines p rest
                {| found_function := f; inside_function := true;
                   brace_count := d; function_body := [] |} in
    {| found_function := found_function st;
       inside_function := inside_function st;
       brace_count := brace_count st;
       function_body := b ++ function_body st |}.
Proof.
  induction rest as [|l rest IH]; intros f d b.
  - simpl. now rewrite app_nil_r.
  - rewrite !scan_inside_step. destruct (d + braces l =? 0)%Z.
    + reflexivity.
    + rewrite IH. rewrite (IH f _ ([] ++ [strip l])). cbn zeta.
      cbn [found_function inside_function brace_count function_body].
      now rewrite <- app_assoc.
Qed.
End ScanMore.

Lemma in_tl {A} (x : A) l : In x (tl l) -> In x l.
Proof. destruct l; [auto|]. now right. Qed.

(** X4.  Every line that [get_function_contents] returns is a line of
    the text, stripped, and is not empty. *)
Theorem get_function_contents_lines content function lines :
  get_function_contents content function = Ok (Some lines) ->
  forall l, In l lines ->
    l <> [] /\ exists line, In line (splitlines content) /\ l = strip line.
Proof.
  unfold get_function_contents. intros H l Hin.
  destruct (re_compile (func_pattern_text function)) as [p|]; [|discriminate].
  cbn [bind] in H. injection H as H. unfold scan_result in H.
  destruct (found_function _); [|discriminate]. injection H as <-.
  destruct (scan_body_lines p (splitlines content) scan_start)
    as (seg & E & Hi).
  rewrite E in Hin. cbn [scan_start function_body app] in Hin.
  unfold slice_1_m1 in Hin. apply filter_subset in Hin as [H1 H2].
  split; [intros ->; discriminate|].
  apply in_tl, in_map_iff in H1 as (line & <- & Hl). eauto.
Qed.

Lemma get_function_contents_lines_witness :
  lit "int x = 5;" <> []
  /\ exists line,
       In line (splitlines three_lines) /\ lit "int x = 5;" = strip line.
Proof.
  apply (get_function_contents_lines three_lines int_f ["int x = 5;" : str]).
  - vm_compute. reflexivity.
  - left. reflexivity.
Defined.

(** X5.  The result depends only on the lines after the first header
    line: neither the lines before it nor what the header line has after
    its brace take part in it. *)
Theorem get_function_contents_after_header
        content1 content2 function func_pattern pre1 header1 pre2 header2 rest :
  re_compile (func_pattern_text function) = Ok func_pattern ->
  splitlines content1 = pre1 ++ header1 :: rest ->
  splitlines content2 = pre2 ++ header2 :: rest ->
  (forall l, In l pre1 -> is_header func_pattern l = false) ->
  (forall l, In l pre2 -> is_header func_pattern l = false) ->
  is_header func_pattern header1 = true ->
  is_header func_pattern header2 = true ->
  get_function_contents content1 function
  = get_function_contents content2 function.
Proof.
  intros Hc H1 H2 Hp1 Hp2 Hh1 Hh2. unfold get_function_contents.
  rewrite Hc, H1, H2. cbn [bind]. f_equal.
  rewrite !scan_searching, !scan_header by auto.
  cbn [scan_start function_body app].
  rewrite (scan_inside_body _ rest true 1 [strip header1]).
  rewrite (scan_inside_body _ rest true 1 [strip header2]).
  reflexivity.
Qed.

Lemma get_function_contents_after_header_witness :
  get_function_contents
    ("int f() { return 1; }" ++ [NL] ++ "int y;" ++ [NL] ++ "}" ++ [NL]) int_f
  = get_function_contents
      ("int f() {" ++ [NL] ++ "int y;" ++ [NL] ++ "}" ++ [NL]) int_f.
Proof.
  eapply (get_function_contents_after_header _ _ int_f _ []
            "int f() { return 1; }" [] "int f() {"
            ["int y;" : str; "}" : str]).
  - vm_compute. reflexivity.
  - vm_compute. reflexivity.
  - vm_compute. reflexivity.
  - intros l [].
  - intros l [].
  - vm_compute. reflexivity.
  - vm_compute. reflexivity.
Defined.

(** Once the reader has failed it stays so. *)
Lemma run_failed t e : fold_left pstep t (Failed e) = Failed e.
Proof. induction t as [|c t IH]; [reflexivity|exact IH]. Qed.

Lemma lits_snoc t c : lits (t ++ [c]) = lits t ++ [Chr (CLit c)].
Proof. unfold lits. now rewrite map_app. Qed.



(** ** What a match object holds *)

Section Sound.
Context {R : Type}.
Variable n0 : nat.

Lemma star_loop_sound
      (body : str -> caps -> (str -> caps -> option R) -> option R)
      (M : str -> caps -> str -> caps -> Prop) :
  (forall k s c x, body s c k = Some x ->
                   exists s' c', M s c s' c' /\ k s' c' = Some x) ->
  forall k fuel s c x,
    star_loop body k fuel s c = Some x ->
    exists s' c', citer M s c s' c' /\ k s' c' = Some x.
Proof.
  intros Hb k. induction fuel as [|fuel IH]; intros s c x H; simpl in H.
  - exists s, c. split; [constructor|assumption].
  - destruct (body s c _) eqn:E.
    + injection H as ->. apply Hb in E as (t & d & Hm & E).
      destruct (Nat.ltb_spec (length t) (length s)) as [Hlt|]; [|discriminate].
      apply IH in E as (s' & c' & Hi & Hk).
      exists s', c'. split; [|assumption]. econstructor; eassumption.
    + exists s, c. split; [constructor|assumption].
Qed.

(** What the matcher returns comes from a match of the expression,
    with the groups of that match. *)
Theorem rmatch_sound r : forall (k : str -> caps -> option R) s c x,
  rmatch n0 r s c k = Some x ->
  exists s' c', matches n0 r s c s' c' /\ k s' c' = Some x.
Proof.
  induction r as [|p| | |r1 IH1 r2 IH2|r1 IH1 r2 IH2|r1 IH1|i r1 IH1];
    intros k s c x H; simpl in H.
  - exists s, c. simpl. auto.
  - destruct s as [|a s]; [discriminate|].
    destruct (cmatch p a) eqn:E; [|discriminate].
    exists s, c. simpl. eauto 6.
  - destruct (Nat.eqb_spec (length s) n0); [|discriminate].
    exists s, c. simpl. auto.
  - destruct s as [|a [|b s]]; [exists [], c; simpl; auto| |discriminate].
    destruct (Ascii.eqb_spec a NL) as [->|]; [|discriminate].
    exists [NL], c. simpl. auto.
  - apply IH1 in H as (t & d & H1 & H).
    apply IH2 in H as (s' & c' & H2 & H).
    exists s', c'. split; [|assumption]. simpl. eauto.
  - destruct (rmatch n0 r1 s c k) eqn:E.
    + injection H as ->. apply IH1 in E as (s' & c' & H1 & E).
      exists s', c'. split; [now left|assumption].
    + apply IH2 in H as (s' & c' & H2 & H).
      exists s', c'. split; [now right|assumption].
  - apply (star_loop_sound _ _ IH1) in H. exact H.
  - apply IH1 in H as (s' & d & H1 & H).
    exists s', ((i, firstn (length s - length s') s) :: d).
    split; [|assumption]. simpl. eauto.
Qed.
End Sound.

Section Matches.
Variable n0 : nat.

(** Forgetting the groups. *)
Lemma matches_lang r : forall s c s' c',
  matches n0 r s c s' c' -> lang n0 r s s'.
Proof.
  induction r as [|p| | |r1 IH1 r2 IH2|r1 IH1 r2 IH2|r1 IH1|i r1 IH1];
    intros s c s' c' H; simpl in *.
  - tauto.
  - tauto.
  - tauto.
  - tauto.
  - destruct H as (t & d & H1 & H2). eauto.
  - destruct H as [H|H]; eauto.
  - induction H; [constructor|]. econstructor; eauto.
  - destruct H as (d & H & _). eauto.
Qed.

(** Without groups in the expression the groups stay. *)
Lemma matches_groupless r : forall s c s' c',
  groupless r = true -> matches n0 r s c s' c' -> c' = c.
Proof.
  induction r as [|p| | |r1 IH1 r2 IH2|r1 IH1 r2 IH2|r1 IH1|i r1 IH1];
    intros s c s' c' G H; simpl in *; try tauto.
  - apply andb_prop in G as [G1 G2]. destruct H as (t & d & H1 & H2).
    apply IH1 in H1; [|assumption]. apply IH2 in H2; [|assumption].
    congruence.
  - apply andb_prop in G as [G1 G2]. destruct H as [H|H]; eauto.
  - induction H as [|s c t d u e H1 _ _ IH]; [reflexivity|].
    apply IH1 in H1; [|assumption]. congruence.
  - discriminate.
Qed.

(** What is left after a match is the end of what was left before. *)
Lemma lang_suffix r : forall s s',
  lang n0 r s s' -> exists t, s = t ++ s'.
Proof.
  induction r as [|p| | |r1 IH1 r2 IH2|r1 IH1 r2 IH2|r1 IH1|i r1 IH1];
    intros s s' H; simpl in *.
  - exists []. now subst.
  - destruct H as (a & -> & _). now exists [a].
  - exists []. now destruct H as [-> _].
  - exists []. now destruct H as [-> _].
  - destruct H as (t & H1 & H2).
    apply IH1 in H1 as (a & ->). apply IH2 in H2 as (b & ->).
    exists (a ++ b). now rewrite app_assoc.
  - destruct H as [H|H]; eauto.
  - induction H as [|s t u H1 _ _ (b & ->)]; [now exists []|].
    apply IH1 in H1 as (a & ->). exists (a ++ b). now rewrite app_assoc.
  - eauto.
Qed.

Lemma matches_cons x xs s c s' c' :
  matches n0 (seq_of (x :: xs)) s c s' c'
  <-> exists t d, matches n0 x s c t d /\ matches n0 (seq_of xs) t d s' c'.
Proof. reflexivity. Qed.

(** A part of the expression without groups. *)
Lemma matches_plain x s c s' c' :
  groupless x = true -> matches n0 x s c s' c' ->
  lang n0 x s s' /\ c' = c.
Proof.
  intros G H. split; [eapply matches_lang; eauto|].
  eapply matches_groupless; eauto.
Qed.

(** A group without groups inside: its text is what it consumed. *)
Lemma matches_group i r s c s' c' :
  groupless r = true -> matches n0 (Group i r) s c s' c' ->
  exists t, s = t ++ s' /\ lang n0 r s s' /\ c' = (i, t) :: c.
Proof.
  intros G (d & H & ->).
  pose proof (matches_lang _ _ _ _ _ H) as HL.
  apply matches_groupless in H; [subst d|assumption].
  destruct (lang_suffix _ _ _ HL) as (t & ->).
  exists t. rewrite firstn_consumed. auto.
Qed.

Lemma lang_plus_chr p xs s s' :
  lang n0 (seq_of (Plus (Chr p) :: xs)) s s'
  <-> exists w u, s = w ++ u /\ forallb (cmatch p) w = true /\ w <> []
                  /\ lang n0 (seq_of xs) u s'.
Proof.
  change (lang n0 (seq_of (Plus (Chr p) :: xs)) s s')
    with (exists t,
             (exists t', (exists a, s = a :: t' /\ cmatch p a = true)
                         /\ iter (lang n0 (Chr p)) t' t)
             /\ lang n0 (seq_of xs) t s').
  split.
  - intros (t & (t' & (a & -> & Ha) & Hi) & H).
    apply iter_chr in Hi as (w & -> & Hw).
    exists (a :: w), t. repeat split; [|discriminate|assumption].
    simpl. now rewrite Ha.
  - intros (w & u & -> & Hw & Hne & H). destruct w as [|a w]; [congruence|].
    simpl in Hw. apply andb_prop in Hw as [Ha Hw].
    exists u. split; [|assumption]. exists (w ++ u). split.
    + exists a. auto.
    + apply iter_chr. eauto.
Qed.

Lemma lang_seq_nil s s' : lang n0 (seq_of []) s s' <-> s' = s.
Proof. reflexivity. Qed.

Lemma lang_chr_cons p xs s s' :
  lang n0 (seq_of (Chr p :: xs)) s s'
  <-> exists a u, s = a :: u /\ cmatch p a = true /\ lang n0 (seq_of xs) u s'.
Proof.
  simpl. split.
  - intros (t & (a & -> & Ha) & H). eauto.
  - intros (a & u & -> & Ha & H). eauto.
Qed.
End Matches.

(** ** More on [format_func_declar] *)

Lemma compile_format :
  re_compile format_func_declar_pattern
  = Ok {| p_regex := format_regex; p_groups := 3 |}.
Proof. vm_compute. reflexivity. Qed.

Lemma cmatch_WSC a : cmatch WSC a = isspace a.
Proof. simpl. now destruct (isspace a). Qed.

Lemma cmatch_NONWSC a : cmatch NONWSC a = negb (isspace a).
Proof. simpl. now destruct (isspace a). Qed.

Lemma cmatch_WORDC a : cmatch WORDC a = isword a.
Proof. simpl. now destruct (isword a). Qed.

Lemma cmatch_NOTRPAREN a : cmatch NOTRPAREN a = negb (a =? ")")%char.
Proof. simpl. now destruct (a =? ")")%char. Qed.

Lemma forallb_ext_in {A} (f g : A -> bool) l :
  (forall a, f a = g a) -> forallb f l = forallb g l.
Proof. intros H. induction l as [|a l IH]; simpl; [reflexivity|]. now rewrite H, IH. Qed.

Lemma forallb_WSC w : forallb (cmatch WSC) w = spaces w.
Proof. apply forallb_ext_in, cmatch_WSC. Qed.

Lemma forallb_WORDC w : forallb (cmatch WORDC) w = forallb isword w.
Proof. apply forallb_ext_in, cmatch_WORDC. Qed.

(** *** Texts that begin and end outside whitespace *)

Lemma trimmed_spec g :
  trimmed g = true
  <-> exists a g', g = a :: g' /\ isspace a = false
                   /\ isspace (last g a) = false.
Proof.
  unfold trimmed. destruct g as [|a g'].
  - split; [discriminate|]. intros (a & g' & H & _). discriminate.
  - split.
    + intros H. apply andb_prop in H as [H1 H2].
      apply negb_true_iff in H1, H2. eauto.
    + intros (a' & g'' & E & H1 & H2). injection E as <- <-.
      now rewrite H1, H2.
Qed.

Lemma last_app_cons {A} (x : list A) y ys d :
  last (x ++ y :: ys) d = last (y :: ys) d.
Proof.
  induction x as [|a x IH]; [reflexivity|].
  simpl app. change (last (a :: x ++ y :: ys) d)
    with (match x ++ y :: ys with [] => a | _ => last (x ++ y :: ys) d end).
  destruct (x ++ y :: ys) eqn:E; [now destruct x|]. exact IH.
Qed.

Lemma last_default {A} (l : list A) d d' : l <> [] -> last l d = last l d'.
Proof.
  induction l as [|a l IH]; [congruence|]. intros _.
  destruct l as [|b l]; [reflexivity|]. apply IH. discriminate.
Qed.

(** A text is a run of characters that satisfy [p] and a rest that does
    not begin with one. *)
Lemma span_run (p : ascii -> bool) l :
  exists a b, l = a ++ b /\ forallb p a = true
              /\ match b with [] => True | x :: _ => p x = false end.
Proof.
  induction l as [|x l (a & b & -> & Ha & Hb)].
  - now exists [], [].
  - destruct (p x) eqn:E.
    + exists (x :: a), b. simpl. rewrite E. auto.
    + exists [], (x :: a ++ b). auto.
Qed.

(** Such a run is the only one. *)
Lemma run_unique (p : ascii -> bool) w : forall w' b b',
  w ++ b = w' ++ b' ->
  forallb p w = true -> forallb p w' = true ->
  match b with [] => True | x :: _ => p x = false end ->
  match b' with [] => True | x :: _ => p x = false end ->
  w = w' /\ b = b'.
Proof.
  induction w as [|a w IH]; intros w' b b' E Hw Hw' Hb Hb'.
  - destruct w' as [|a' w']; [auto|]. simpl in *. subst b.
    apply andb_prop in Hw' as [Ha _]. congruence.
  - destruct w' as [|a' w'].
    + simpl in *. subst b'. apply andb_prop in Hw as [Ha _]. congruence.
    + simpl in *. injection E as <- E.
      apply andb_prop in Hw as [_ Hw]. apply andb_prop in Hw' as [_ Hw'].
      destruct (IH _ _ _ E Hw Hw' Hb Hb') as [-> ->]. auto.
Qed.

(** The same at the end of the text. *)
Lemma run_unique_end (p : ascii -> bool) a a' w w' :
  a ++ w = a' ++ w' ->
  forallb p w = true -> forallb p w' = true ->
  match rev a with [] => True | x :: _ => p x = false end ->
  match rev a' with [] => True | x :: _ => p x = false end ->
  a = a' /\ w = w'.
Proof.
  intros E Hw Hw' Ha Ha'.
  apply (f_equal (@rev ascii)) in E. rewrite !rev_app_distr in E.
  assert (Hr : forall l, forallb p l = true -> forallb p (rev l) = true).
  { intros l H. rewrite forallb_forall in *. intros x Hx. apply H.
    now apply in_rev. }
  destruct (run_unique p _ _ _ _ E (Hr _ Hw) (Hr _ Hw') Ha Ha') as [E1 E2].
  apply (f_equal (@rev ascii)) in E1, E2. rewrite !rev_involutive in E1, E2.
  auto.
Qed.

Lemma rev_head_last (l : str) b : rev (l ++ [b]) = b :: rev l.
Proof. now rewrite rev_app_distr. Qed.

(** The last character of [trimmed]. *)
Lemma trimmed_end g :
  trimmed g = true -> exists g' b, g = g' ++ [b] /\ isspace b = false.
Proof.
  intros H. apply trimmed_spec in H as (a & g0 & -> & _ & H).
  destruct (@exists_last _ (a :: g0)) as (g' & b & E); [discriminate|].
  exists g', b. split; [exact E|]. rewrite E in H.
  now rewrite last_last in H.
Qed.

Lemma trimmed_intro a g b :
  isspace a = false -> isspace b = false -> trimmed ((a :: g) ++ [b]) = true.
Proof.
  intros Ha Hb. apply trimmed_spec. exists a, (g ++ [b]).
  split; [reflexivity|]. split; [assumption|].
  change (a :: g ++ [b]) with ((a :: g) ++ [b]). now rewrite last_last.
Qed.

Lemma trimmed_one a : isspace a = false -> trimmed [a] = true.
Proof. intros H. simpl. now rewrite H. Qed.

Section Tokens.
Variable n0 : nat.

Lemma lang_item s s' :
  lang n0 (seq_of [Plus (Chr WSC); Plus (Chr NONWSC)]) s s'
  <-> exists w x, s = w ++ x ++ s' /\ spaces w = true /\ w <> []
                  /\ forallb (cmatch NONWSC) x = true /\ x <> [].
Proof.
  rewrite lang_plus_chr. setoid_rewrite lang_plus_chr.
  setoid_rewrite lang_seq_nil. setoid_rewrite forallb_WSC. split.
  - intros (w & u & -> & Hw & Hw0 & x & u' & -> & Hx & Hx0 & ->).
    exists w, x. auto.
  - intros (w & x & -> & Hw & Hw0 & Hx & Hx0).
    exists w, (x ++ s'). repeat split; auto. exists x, s'. auto.
Qed.

(** What the repetition of [\s+\S+] consumes ends outside whitespace. *)
Lemma iter_item s s' :
  iter (lang n0 (seq_of [Plus (Chr WSC); Plus (Chr NONWSC)])) s s' ->
  exists h, s = h ++ s'
            /\ (h = [] \/ exists h' b, h = h' ++ [b] /\ isspace b = false).
Proof.
  induction 1 as [s|s t u H1 _ _ (h & -> & Hh)].
  - exists []. auto.
  - apply lang_item in H1 as (w & x & -> & Hw & Hw0 & Hx & Hx0).
    exists (w ++ x ++ h). split; [now rewrite <- !app_assoc|]. right.
    destruct Hh as [->|(h' & b & -> & Hb)].
    + destruct (exists_last Hx0) as (x' & b & ->).
      exists (w ++ x'), b. split; [now rewrite app_nil_r, <- app_assoc|].
      rewrite forallb_app in Hx. apply andb_prop in Hx as [_ Hx].
      cbn [forallb] in Hx. rewrite cmatch_NONWSC in Hx.
      apply andb_prop in Hx as [Hx _]. now apply negb_true_iff.
    + exists (w ++ x ++ h'), b. split; [now rewrite <- !app_assoc|assumption].
Qed.

(** The texts of [\S+(?:\s+\S+)*]. *)
Lemma lang_tokens_sound s s' :
  lang n0 TOKENS s s' -> exists g, s = g ++ s' /\ trimmed g = true.
Proof.
  unfold TOKENS. rewrite lang_plus_chr.
  intros (w & u & -> & Hw & Hw0 & t & Hi & ->).
  apply iter_item in Hi as (h & -> & Hh).
  exists (w ++ h). split; [now rewrite <- app_assoc|].
  destruct w as [|a w]; [congruence|].
  assert (Ha : isspace a = false).
  { cbn [forallb] in Hw. apply andb_prop in Hw as [Ha _].
    rewrite cmatch_NONWSC in Ha. now apply negb_true_iff. }
  destruct Hh as [->|(h' & b & -> & Hb)].
  - rewrite app_nil_r. destruct (@exists_last _ (a :: w)) as (x' & b & E);
      [discriminate|].
    rewrite E in Hw. rewrite forallb_app in Hw.
    apply andb_prop in Hw as [_ Hw]. cbn [forallb] in Hw.
    rewrite cmatch_NONWSC in Hw. apply andb_prop in Hw as [Hb _].
    apply negb_true_iff in Hb.
    apply trimmed_spec. exists a, w. split; [reflexivity|].
    split; [assumption|]. rewrite E. now rewrite last_last.
  - replace ((a :: w) ++ h' ++ [b]) with ((a :: w ++ h') ++ [b])
      by (simpl; now rewrite <- app_assoc).
    now apply trimmed_intro.
Qed.

Lemma lang_tokens_complete_len n : forall g s',
  length g <= n -> trimmed g = true -> lang n0 TOKENS (g ++ s') s'.
Proof.
  induction n as [|n IH]; intros g s' Hlen Hg.
  - destruct g; [discriminate|simpl in Hlen; lia].
  - pose proof Hg as Hg'. apply trimmed_spec in Hg' as (a & g0 & -> & Ha & Hl).
    destruct (span_run (cmatch NONWSC) (a :: g0)) as (x & b & E & Hx & Hb).
    assert (Hx0 : x <> []).
    { intros ->. simpl in E. subst b. rewrite cmatch_NONWSC, Ha in Hb.
      discriminate. }
    unfold TOKENS. rewrite lang_plus_chr. rewrite E.
    exists x, (b ++ s'). rewrite <- app_assoc.
    repeat split; auto.
    destruct b as [|y b0].
    + exists s'. split; [constructor|reflexivity].
    + rewrite cmatch_NONWSC in Hb. apply negb_false_iff in Hb.
      destruct (span_run (cmatch WSC) (y :: b0)) as (w & b' & Ew & Hw & Hb').
      assert (Hw0 : w <> []).
      { intros ->. simpl in Ew. subst b'. rewrite cmatch_WSC, Hb in Hb'.
        discriminate. }
      rewrite forallb_WSC in Hw.
      assert (Hb0 : trimmed b' = true).
      { destruct b' as [|z b1].
        - exfalso. rewrite app_nil_r in Ew.
          rewrite E, Ew in Hl.
          destruct (exists_last Hw0) as (w' & c & ->).
          rewrite app_assoc, last_last in Hl.
          unfold spaces in Hw. rewrite forallb_app in Hw.
          apply andb_prop in Hw as [_ Hw]. simpl in Hw.
          apply andb_prop in Hw as [Hc _]. congruence.
        - rewrite cmatch_WSC in Hb'. apply trimmed_spec.
          exists z, b1. split; [reflexivity|]. split; [assumption|].
          rewrite E, Ew in Hl. rewrite app_assoc, last_app_cons in Hl.
          rewrite (last_default _ z a); [assumption|discriminate]. }
      assert (Hlen' : length b' <= n).
      { apply (f_equal (@length ascii)) in E, Ew.
        rewrite length_app in E, Ew. simpl in *.
        destruct x; [congruence|]. destruct w; [congruence|].
        simpl in *. lia. }
      pose proof (IH b' s' Hlen' Hb0) as HL.
      unfold TOKENS in HL. rewrite lang_plus_chr in HL.
      destruct HL as (x2 & u2 & E2 & Hx2 & Hx20 & t & Hi & ->).
      exists t. split; [|reflexivity].
      apply iter_more with (t := u2); [| |assumption].
      * apply lang_item. exists w, x2.
        rewrite Ew, <- app_assoc, E2. auto.
      * rewrite Ew, <- app_assoc, E2, !length_app.
        destruct w; [congruence|]. simpl. lia.
Qed.

Lemma lang_tokens_complete g s' :
  trimmed g = true -> lang n0 TOKENS (g ++ s') s'.
Proof. apply (lang_tokens_complete_len (length g)). apply le_n. Qed.
End Tokens.

Section FormatLang.
Variable n0 : nat.

Lemma lang_seq_one x s s' : lang n0 (seq_of [x]) s s' <-> lang n0 x s s'.
Proof.
  simpl. split; [now intros (t & H & ->)|]. intros H. eauto.
Qed.

Lemma lang_plus_one p s s' :
  lang n0 (Plus (Chr p)) s s'
  <-> exists w, s = w ++ s' /\ forallb (cmatch p) w = true /\ w <> [].
Proof.
  rewrite <- lang_seq_one, lang_plus_chr. setoid_rewrite lang_seq_nil. split.
  - intros (w & u & -> & Hw & Hw0 & ->). eauto.
  - intros (w & -> & Hw & Hw0). exists w, s'. auto.
Qed.

Lemma lang_star_one p s s' :
  lang n0 (Star (Chr p)) s s'
  <-> exists w, s = w ++ s' /\ forallb (cmatch p) w = true.
Proof. apply iter_chr. Qed.

Lemma lang_lit_one c s s' : lang n0 (Chr (CLit c)) s s' <-> s = c :: s'.
Proof.
  simpl. split.
  - intros (a & -> & Ha). now apply Ascii.eqb_eq in Ha as ->.
  - intros ->. exists c. split; [reflexivity|apply Ascii.eqb_refl].
Qed.

Lemma lang_cons x xs s s' :
  lang n0 (seq_of (x :: xs)) s s'
  <-> exists t, lang n0 x s t /\ lang n0 (seq_of xs) t s'.
Proof. reflexivity. Qed.
End FormatLang.

(** The matches of the pattern, with their groups. *)
Lemma format_matches s s' c' :
  matches (length s) format_regex s [] s' c' ->
  exists g1 w1 fname w2 params tail,
    declar_shape s g1 w1 fname w2 params tail
    /\ c' = [(3, params); (2, fname); (1, g1)].
Proof.
  unfold format_regex. intros H.
  apply matches_cons in H as (t0 & d0 & H0 & H).
  apply matches_plain in H0 as [[-> _] ->]; [|reflexivity].
  apply matches_cons in H as (t1 & d1 & H1 & H).
  apply matches_group in H1 as (g1 & E1 & L1 & ->); [|reflexivity].
  apply lang_tokens_sound in L1 as (g & Eg & Hg).
  rewrite E1 in Eg. apply app_inv_tail in Eg. subst g.
  apply matches_cons in H as (t2 & d2 & H2 & H).
  apply matches_plain in H2 as [L2 ->]; [|reflexivity].
  apply lang_plus_one in L2 as (w1 & -> & Hw1 & Hw10).
  rewrite forallb_WSC in Hw1.
  apply matches_cons in H as (t3 & d3 & H3 & H).
  apply matches_group in H3 as (fname & E3 & L3 & ->); [|reflexivity].
  apply lang_seq_one, lang_plus_one in L3 as (fname' & E3' & Hn & Hn0).
  rewrite E3 in E3'. apply app_inv_tail in E3'. subst fname' t2.
  rewrite forallb_WORDC in Hn.
  apply matches_cons in H as (t4 & d4 & H4 & H).
  apply matches_plain in H4 as [L4 ->]; [|reflexivity].
  apply lang_star_one in L4 as (w2 & -> & Hw2).
  rewrite forallb_WSC in Hw2.
  apply matches_cons in H as (t5 & d5 & H5 & H).
  apply matches_plain in H5 as [L5 ->]; [|reflexivity].
  apply lang_lit_one in L5 as ->.
  apply matches_cons in H as (t6 & d6 & H6 & H).
  apply matches_group in H6 as (params & E6 & L6 & ->); [|reflexivity].
  apply lang_seq_one, lang_star_one in L6 as (params' & E6' & Hp).
  rewrite E6 in E6'. apply app_inv_tail in E6'. subst params' t5.
  apply forallb_NOTRPAREN in Hp.
  apply matches_cons in H as (t7 & d7 & H7 & H).
  apply matches_plain in H7 as [L7 ->]; [|reflexivity].
  apply lang_lit_one in L7 as ->.
  apply matches_cons in H as (t8 & d8 & H8 & H).
  apply matches_plain in H8 as [[-> Ht] ->]; [|reflexivity].
  destruct H as [-> ->].
  exists g1, w1, fname, w2, params, t7.
  split; [|reflexivity]. unfold declar_shape. rewrite E1.
  split; [reflexivity|]. repeat (split; [assumption|]). assumption.
Qed.

Lemma format_match_sound s m :
  re_match {| p_regex := format_regex; p_groups := 3 |} s = Some m ->
  exists g1 w1 fname w2 params tail,
    declar_shape s g1 w1 fname w2 params tail
    /\ groups m = [Some g1; Some fname; Some params].
Proof.
  unfold re_match. intros H.
  apply rmatch_sound in H as (s' & c' & H & E).
  apply format_matches in H as (g1 & w1 & fname & w2 & params & tail & Hs & ->).
  injection E as <-. exists g1, w1, fname, w2, params, tail.
  split; [assumption|reflexivity].
Qed.

Lemma format_match_complete s g1 w1 fname w2 params tail :
  declar_shape s g1 w1 fname w2 params tail ->
  re_match {| p_regex := format_regex; p_groups := 3 |} s <> None.
Proof.
  intros (E & Hg & Hw1 & Hw10 & Hn & Hn0 & Hw2 & Hp & Ht).
  apply re_match_lang. cbn [p_regex]. exists tail. unfold format_regex.
  rewrite lang_bol. split; [reflexivity|].
  apply lang_cons. exists (w1 ++ fname ++ w2 ++ "(" ++ params ++ ")" ++ tail).
  split; [rewrite E; apply (lang_tokens_complete _ g1); assumption|].
  apply lang_plus_chr. exists w1, (fname ++ w2 ++ "(" ++ params ++ ")" ++ tail).
  rewrite forallb_WSC. repeat split; auto.
  apply lang_cons. exists (w2 ++ "(" ++ params ++ ")" ++ tail). split.
  { apply lang_seq_one, lang_plus_one. exists fname.
    rewrite forallb_WORDC. auto. }
  apply lang_star_chr. exists w2, ("(" ++ params ++ ")" ++ tail).
  rewrite forallb_WSC. repeat split; auto.
  apply lang_lit. exists (params ++ ")" ++ tail). split; [reflexivity|].
  apply lang_cons. exists (")" ++ tail). split.
  { apply lang_seq_one, lang_star_one. exists params.
    split; [reflexivity|]. now apply forallb_NOTRPAREN. }
  apply lang_lit. exists tail. split; [reflexivity|].
  apply lang_seq_one. simpl. auto.
Qed.

Lemma word_not_star c : isword c = true -> (c =? "*")%char = false.
Proof.
  intros H. destruct (Ascii.eqb_spec c "*") as [->|]; [discriminate H|reflexivity].
Qed.

(** What [format_func_declar] returns, from the match object. *)
Lemma format_func_declar_value s :
  (re_match {| p_regex := format_regex; p_groups := 3 |} s = None
   /\ format_func_declar s = Ok None)
  \/ exists g1 w1 fname w2 params tail,
       declar_shape s g1 w1 fname w2 params tail
       /\ format_func_declar s
          = (ps <- extract_function_parameters params ;;
             Ok (Some (Build_Function g1 fname ps))).
Proof.
  unfold format_func_declar. rewrite compile_format. cbn [bind].
  destruct (re_match _ s) as [m|] eqn:E; [right|left; auto].
  apply format_match_sound in E
    as (g1 & w1 & fname & w2 & params & tail & Hs & ->).
  exists g1, w1, fname, w2, params, tail. split; [assumption|].
  destruct Hs as (_ & _ & _ & _ & Hn & Hn0 & _).
  destruct fname as [|c rest]; [congruence|].
  simpl in Hn. apply andb_prop in Hn as [Hc _].
  rewrite (word_not_star c Hc). reflexivity.
Qed.

(** X7.  When [format_func_declar] returns a function, the snippet is
    made of the return type, which neither begins nor ends with
    whitespace, whitespace (at least one character), the name, which is
    made of word characters, whitespace, [(], a text without [)], [)] and
    at most a final newline; the parameters are those of that text.  The
    return type and the name are the texts of the snippet as they are: a
    name of word characters has no [*] to move. *)
Theorem format_func_declar_sound func_str function :
  format_func_declar func_str = Ok (Some function) ->
  exists w1 w2 params tail,
    declar_shape func_str (return_type function) w1
                 (function_name function) w2 params tail
    /\ extract_function_parameters params = Ok (parameters function).
Proof.
  intros H.
  destruct (format_func_declar_value func_str)
    as [[_ E]|(g1 & w1 & fname & w2 & params & tail & Hs & E)];
    rewrite E in H; [discriminate H|].
  destruct (extract_function_parameters params) as [ps|] eqn:Ep;
    [|discriminate H].
  cbn [bind] in H. injection H as <-.
  exists w1, w2, params, tail. split; [exact Hs|exact Ep].
Qed.

Lemma format_func_declar_sound_witness :
  exists w1 w2 params tail,
    declar_shape "unsigned long add(int a, char *b)" "unsigned long" w1
                 "add" w2 params tail
    /\ extract_function_parameters params
       = Ok [Build_Variable "int" "a" None; Build_Variable "char*" "b" None].
Proof.
  apply (format_func_declar_sound
           "unsigned long add(int a, char *b)"
           (Build_Function "unsigned long" "add"
              [Build_Variable "int" "a" None;
               Build_Variable "char*" "b" None])).
  vm_compute. reflexivity.
Defined.

(** X8.  "Function declaration not found" is returned exactly for the
    snippets that are not so made. *)
Theorem format_func_declar_not_found func_str :
  format_func_declar func_str = Ok None
  <-> ~ exists g1 w1 fname w2 params tail,
        declar_shape func_str g1 w1 fname w2 params tail.
Proof.
  destruct (format_func_declar_value func_str)
    as [[E1 E2]|(g1 & w1 & fname & w2 & params & tail & Hs & E)].
  - split; [|intros _; exact E2].
    intros _ (g1 & w1 & fname & w2 & params & tail & Hs).
    apply format_match_complete in Hs. contradiction.
  - split.
    + rewrite E. intros H.
      destruct (extract_function_parameters params); discriminate H.
    + intros H. exfalso. apply H.
      exists g1, w1, fname, w2, params, tail. exact Hs.
Qed.

(** X9.  The only exception that [format_func_declar] raises is the
    ValueError of the parameter list: [function_name[0]] and the
    unpacking of the groups do not raise. *)
Theorem format_func_declar_only_ValueError func_str e :
  format_func_declar func_str = Raise e -> e = ValueError.
Proof.
  intros H.
  destruct (format_func_declar_value func_str)
    as [[_ E]|(g1 & w1 & fname & w2 & params & tail & Hs & E)];
    rewrite E in H; [discriminate H|].
  destruct (extract_function_parameters params) as [ps|e'] eqn:Ee;
    [discriminate H|].
  cbn [bind] in H. injection H as <-.
  destruct params as [|c p]; [discriminate Ee|].
  rewrite extract_nonempty in Ee by discriminate.
  apply clean_params_loop_error in Ee; [assumption|].
  apply Forall_forall. intros q Hq. apply in_map_iff in Hq as (q' & <- & _).
  apply clean_param_stripped.
Qed.

Lemma format_func_declar_only_ValueError_witness :
  format_func_declar "int* make(void)" = Raise ValueError
  /\ ValueError = ValueError.
Proof.
  assert (H : format_func_declar "int* make(void)" = Raise ValueError)
    by (vm_compute; reflexivity).
  split; [exact H|].
  exact (format_func_declar_only_ValueError "int* make(void)" _ H).
Defined.

(** ** More on [extract_function_variables] *)

Lemma cmatch_NAMECHAR a : cmatch NAMECHAR a = is_name_char a.
Proof.
  unfold is_name_char. simpl.
  destruct (isword a), (a =? "*")%char; reflexivity.
Qed.

Section DeclLang.
Variable n0 : nat.

(** The texts of the alternation of the keywords. *)
Lemma lang_keyword s s' :
  lang n0 KEYWORD s s' ->
  exists kw, In kw primitive_keywords /\ s = kw ++ s'.
Proof.
  assert (L : forall kw, lang n0 (seq_of (lits kw)) s s' -> s = kw ++ s').
  { intros kw H. rewrite <- (app_nil_r (lits kw)) in H.
    apply lang_lits in H as (u & -> & H). simpl in H. now subst. }
  unfold KEYWORD, primitive_keywords. cbn [map alt_of].
  intros H.
  repeat (destruct H as [H|H];
          [apply L in H; eexists; split; [|exact H]; simpl; tauto|]).
  apply L in H. eexists. split; [|exact H]. simpl. tauto.
Qed.

(** The groups of a match of the declaration pattern. *)
Lemma decl_matches s s' c' :
  matches n0 decl_regex s [] s' c' ->
  exists kw nm rest,
    In kw primitive_keywords
    /\ nm <> [] /\ forallb is_name_char nm = true
    /\ (rest = [] \/ exists t3 t4, rest = [(3, t3); (4, t4)])
    /\ c' = rest ++ [(2, nm); (1, kw)].
Proof.
  unfold decl_regex. intros H.
  apply matches_cons in H as (t0 & d0 & H0 & H).
  apply matches_plain in H0 as [_ ->]; [|reflexivity].
  apply matches_cons in H as (t1 & d1 & H1 & H).
  apply matches_plain in H1 as [_ ->]; [|reflexivity].
  apply matches_cons in H as (t2 & d2 & H2 & H).
  apply matches_group in H2 as (kw & E2 & L2 & ->); [|reflexivity].
  apply lang_keyword in L2 as (kw' & Hkw & E2').
  rewrite E2 in E2'. apply app_inv_tail in E2'. subst kw'.
  apply matches_cons in H as (t3 & d3 & H3 & H).
  apply matches_plain in H3 as [_ ->]; [|reflexivity].
  apply matches_cons in H as (t4 & d4 & H4 & H).
  apply matches_group in H4 as (nm & E4 & L4 & ->); [|reflexivity].
  apply lang_seq_one, lang_plus_one in L4 as (nm' & E4' & Hnm & Hnm0).
  rewrite E4 in E4'. apply app_inv_tail in E4'. subst nm'.
  assert (Hname : forallb is_name_char nm = true).
  { rewrite forallb_forall in *. intros a Ha.
    rewrite <- cmatch_NAMECHAR. auto. }
  apply matches_cons in H as (t5 & d5 & H5 & H).
  assert (Hrest : exists rest,
             (rest = [] \/ exists t3 t4, rest = [(3, t3); (4, t4)])
             /\ d5 = rest ++ [(2, nm); (1, kw)]).
  { destruct H5 as [(d & H5 & ->)|[_ ->]]; [|exists []; auto].
    apply matches_cons in H5 as (u0 & e0 & G0 & H5).
    apply matches_plain in G0 as [_ ->]; [|reflexivity].
    apply matches_cons in H5 as (u1 & e1 & G1 & H5).
    apply matches_plain in G1 as [_ ->]; [|reflexivity].
    apply matches_cons in H5 as (u2 & e2 & G2 & H5).
    apply matches_plain in G2 as [_ ->]; [|reflexivity].
    apply matches_cons in H5 as (u3 & e3 & G3 & H5).
    apply matches_group in G3 as (t4' & _ & _ & ->); [|reflexivity].
    destruct H5 as [_ ->].
    eexists. split; [right; eexists _, _; reflexivity|reflexivity]. }
  destruct Hrest as (rest & Hrest & ->).
  apply matches_cons in H as (t6 & d6 & H6 & H).
  apply matches_plain in H6 as [_ ->]; [|reflexivity].
  apply matches_cons in H as (t7 & d7 & H7 & H).
  apply matches_plain in H7 as [_ ->]; [|reflexivity].
  destruct H as [_ ->].
  exists kw, nm, rest. auto.
Qed.
End DeclLang.

(** What the body of the loop gives for a line that matches. *)
Lemma variable_of_match_decl line m :
  re_match {| p_regex := decl_regex; p_groups := 4 |} line = Some m ->
  variable_of_match {| p_regex := call_regex; p_groups := 1 |} m
  = Raise IndexError
  \/ exists v,
       variable_of_match {| p_regex := call_regex; p_groups := 1 |} m = Ok v
       /\ In (data_type v) primitive_keywords
       /\ name v <> [] /\ forallb is_name_char (name v) = true.
Proof.
  unfold re_match. cbn [p_regex p_groups]. intros H.
  apply rmatch_sound in H as (s' & c' & H & E).
  apply decl_matches in H as (kw & nm & rest & Hkw & Hnm0 & Hnm & Hrest & ->).
  injection E as <-. unfold variable_of_match, group.
  cbn [m_groups m_caps Nat.eqb Nat.leb].
  destruct Hrest as [->|(t3 & t4 & ->)];
    cbn [app cap_lookup Nat.eqb bind text_of].
  - right. eexists. split; [reflexivity|]. auto.
  - destruct (nonempty t3); cbn [bind].
    + destruct (re_match _ _) as [m'|] eqn:Em.
      * left. apply re_match_groups in Em. cbn [p_groups] in Em.
        rewrite Em. reflexivity.
      * right. eexists. split; [reflexivity|]. auto.
    + right. eexists. split; [reflexivity|]. auto.
Qed.

Lemma variables_loop_invariant (P : Variable_ -> Prop) ls : forall acc,
  let p := {| p_regex := decl_regex; p_groups := 4 |} in
  let fp := {| p_regex := call_regex; p_groups := 1 |} in
  (forall line m v, re_match p line = Some m ->
                    variable_of_match fp m = Ok v -> P v) ->
  Forall P acc ->
  match variables_loop p fp ls acc with
  | Ok vs => Forall P vs /\ length vs <= length acc + length ls
  | Raise e => e = IndexError
  end.
Proof.
  induction ls as [|l ls IH]; intros acc p fp HP Hacc.
  - simpl. split; [assumption|lia].
  - cbn [variables_loop]. destruct (re_match p l) as [m|] eqn:Em.
    + destruct (variable_of_match_decl l m Em) as [E|(v & E & _)];
        fold fp in E; rewrite E; cbn [bind]; [reflexivity|].
      pose proof (IH (acc ++ [v]) HP) as H. cbv zeta in H.
      fold p fp in H.
      destruct (variables_loop p fp ls (acc ++ [v])).
      * destruct H as [H1 H2].
        { apply Forall_app. split; [assumption|].
          constructor; [|constructor]. exact (HP l m v Em E). }
        split; [assumption|]. rewrite length_app in H2. simpl in *. lia.
      * apply H. apply Forall_app. split; [assumption|].
        constructor; [|constructor]. exact (HP l m v Em E).
    + pose proof (IH acc HP Hacc) as H. cbv zeta in H. fold p fp in H.
      destruct (variables_loop p fp ls acc); [|assumption].
      destruct H as [H1 H2]. split; [assumption|]. simpl. lia.
Qed.

Lemma variables_loop_decl ls :
  match extract_function_variables ls with
  | Ok vs =>
      Forall (fun v => In (data_type v) primitive_keywords
                       /\ name v <> []
                       /\ forallb is_name_char (name v) = true) vs
      /\ length vs <= length ls
  | Raise e => e = IndexError
  end.
Proof.
  unfold extract_function_variables.
  rewrite compile_decl, compile_call. cbn [bind].
  apply (variables_loop_invariant _ ls []); [|constructor].
  intros line m v Hm Hv.
  destruct (variable_of_match_decl line m Hm) as [E|(v' & E & H)];
    rewrite E in Hv; [discriminate Hv|].
  injection Hv as <-. exact H.
Qed.

(** X10.  When [extract_function_variables] returns, there is at most
    one variable for each line, and every variable has a primitive
    keyword as its type and a name that is not empty and is made of word
    characters and [*]. *)
Theorem extract_function_variables_invariants function_contents vs :
  extract_function_variables function_contents = Ok vs ->
  length vs <= length function_contents
  /\ forall v, In v vs ->
       In (data_type v) primitive_keywords
       /\ name v <> [] /\ forallb is_name_char (name v) = true.
Proof.
  intros H. pose proof (variables_loop_decl function_contents) as L.
  rewrite H in L. destruct L as [L1 L2]. split; [assumption|].
  now apply Forall_forall.
Qed.

Lemma extract_function_variables_invariants_witness :
  length [Build_Variable "int" "x" (Some (VStr "5"));
          Build_Variable "char" "*s" None] <= 3
  /\ forall v,
       In v [Build_Variable "int" "x" (Some (VStr "5"));
             Build_Variable "char" "*s" None] ->
       In (data_type v) primitive_keywords
       /\ name v <> [] /\ forallb is_name_char (name v) = true.
Proof.
  apply (extract_function_variables_invariants
           ["int x = 5;" : str; "x = x + 1;" : str; "char *s;" : str]).
  vm_compute. reflexivity.
Defined.



(** X12.  The lines are read one by one and independently: when two
    bodies are read without error, reading one after the other gives the
    variables of the first followed by those of the second. *)
Theorem extract_function_variables_app l1 l2 vs1 vs2 :
  extract_function_variables l1 = Ok vs1 ->
  extract_function_variables l2 = Ok vs2 ->
  extract_function_variables (l1 ++ l2) = Ok (vs1 ++ vs2).
Proof.
  unfold extract_function_variables.
  rewrite compile_decl, compile_call. cbn [bind]. intros H1 H2.
  rewrite (variables_loop_app _ _ _ _ _ _ H1).
  rewrite <- (app_nil_r vs1) at 1. now apply variables_loop_acc.
Qed.

Lemma extract_function_variables_app_witness :
  extract_function_variables
    (["int x = 5;" : str; "x = x + 1;" : str] ++ ["char *s;" : str])
  = Ok ([Build_Variable "int" "x" (Some (VStr "5"))]
        ++ [Build_Variable "char" "*s" None]).
Proof.
  apply extract_function_variables_app; vm_compute; reflexivity.
Defined.

(** ** More on [verify_initial_checks] *)

Lemma format_int_main : format_func_declar "int main()" = Ok (Some int_main).
Proof. vm_compute. reflexivity. Qed.

Lemma compile_int_main :
  re_compile (func_pattern_text int_main)
  = Ok {| p_regex := header_regex int_main; p_groups := 0 |}.
Proof. apply compile_header; reflexivity. Qed.

(** The check, for a C file that compiles and is read. *)
Lemma verify_initial_checks_read content :
  verify_initial_checks true true (Some content)
  = match scan_result
            (scan_lines {| p_regex := header_regex int_main; p_groups := 0 |}
                        (splitlines content) scan_start) with
    | Some [] => Raise IndexError
    | Some lines => Ok (str_eqb "return 0;" (last lines []))
    | None => Ok true
    end.
Proof.
  unfold verify_initial_checks. cbn [negb]. rewrite format_int_main.
  cbn [bind]. unfold get_function_contents. rewrite compile_int_main.
  cbn [bind]. destruct (scan_result _) as [[|l ls]|]; try reflexivity.
  now destruct (str_eqb "return 0;" (last (l :: ls) [])).
Qed.

Lemma not_header_shape function l :
  ~ header_shape function l ->
  is_header {| p_regex := header_regex function; p_groups := 0 |} l = false.
Proof.
  intros H. destruct (is_header _ l) eqn:E; [|reflexivity].
  exfalso. now apply H, is_header_shape.
Qed.

(** X13.  For a C file that compiles, whose text has a line with the
    header of [int main()] and, after the first such line, a first line
    at whose end the depth is zero: the check is whether the last of the
    lines between the two that are not empty once stripped is
    [return 0;]; and when there is no such line, as for a [main] with an
    empty body, [function_contents[-1]] raises IndexError. *)
Theorem verify_initial_checks_main
        content pre header body closing post :
  splitlines content = pre ++ header :: body ++ closing :: post ->
  (forall l, In l pre -> ~ header_shape int_main l) ->
  header_shape int_main header ->
  open_through body 1 = true ->
  depth_after (body ++ [closing]) 1 = 0%Z ->
  verify_initial_checks true true (Some content)
  = match filter nonempty (map strip body) with
    | [] => Raise IndexError
    | lines => Ok (str_eqb "return 0;" (last lines []))
    end.
Proof.
  intros Hl Hpre Hh Hopen Hclose. rewrite verify_initial_checks_read, Hl.
  rewrite scan_searching;
    [|reflexivity|intros l Hin; apply not_header_shape; auto].
  rewrite scan_header; [|reflexivity|now apply is_header_shape].
  rewrite scan_closed by assumption.
  unfold scan_result. cbn [found_function function_body scan_start app].
  rewrite slice_body.
  destruct (filter nonempty (map strip body)); reflexivity.
Qed.

Lemma verify_initial_checks_main_witness :
  verify_initial_checks true true (Some main_returns_zero) = Ok true
  /\ verify_initial_checks true true (Some main_empty) = Raise IndexError.
Proof.
  assert (Hs : forall l, is_header {| p_regex := header_regex int_main;
                                      p_groups := 0 |} l = true ->
                         header_shape int_main l)
    by (intros l; apply is_header_shape).
  assert (Hn : forall l, is_header {| p_regex := header_regex int_main;
                                      p_groups := 0 |} l = false ->
                         ~ header_shape int_main l).
  { intros l E H. apply is_header_shape in H. rewrite E in H. discriminate H. }
  split.
  - refine (verify_initial_checks_main
              main_returns_zero ["#include <stdio.h>" : str] "int main() {"
              ["  if (1) { f(); }" : str; "  return 0;" : str; []] "}" []
              _ _ _ _ _).
    + vm_compute. reflexivity.
    + intros l [<-|[]]. apply Hn. vm_compute. reflexivity.
    + apply Hs. vm_compute. reflexivity.
    + vm_compute. reflexivity.
    + vm_compute. reflexivity.
  - refine (verify_initial_checks_main
              main_empty [] "int main() {" [] "}" [] _ _ _ _ _).
    + vm_compute. reflexivity.
    + intros l [].
    + apply Hs. vm_compute. reflexivity.
    + vm_compute. reflexivity.
    + vm_compute. reflexivity.
Defined.

(** X14.  For a C file that compiles and in whose text no line has the
    header of [int main()], nothing is checked and the result is [True]:
    so it is for [int main(void)]. *)
Theorem verify_initial_checks_no_main content :
  (forall l, In l (splitlines content) -> ~ header_shape int_main l) ->
  verify_initial_checks true true (Some content) = Ok true.
Proof.
  intros H. rewrite verify_initial_checks_read.
  assert (E : scan_result
                (scan_lines {| p_regex := header_regex int_main;
                               p_groups := 0 |}
                            (splitlines content) scan_start) = None).
  { apply scan_result_none. intros l Hin. apply not_header_shape. auto. }
  now rewrite E.
Qed.

Lemma verify_initial_checks_no_main_witness :
  verify_initial_checks true true (Some main_void) = Ok true.
Proof.
  apply verify_initial_checks_no_main. intros l Hin H.
  apply is_header_shape in H.
  destruct Hin as [<-|[<-|[<-|[]]]]; vm_compute in H; discriminate H.
Defined.
